(** * selfapi: a shallow embedding of the resource tree, its handler-export
    protocol and its self-test engine (src/selfapi.js, second half of the
    file: the current version of the module). *)

From Stdlib Require Import String Ascii List Bool Arith ZArith Lia Permutation.
From Stdlib Require Import DecimalString DecimalNat FinFun.
Import ListNotations.
Open Scope list_scope.
Open Scope string_scope.

(* ------------------------------------------------------------------ *)
(** ** Strings as Node's [path.posix] sees them *)

Definition slash : ascii := "/"%char.

Definition is_slash (c : ascii) : bool := Ascii.eqb c slash.

(** Split a string on every ["/"]; the empty string gives [[""]], as
    [String.prototype.split] does. *)
Fixpoint split_slash (s : string) : list string :=
  match s with
  | EmptyString => [EmptyString]
  | String c s' =>
      let r := split_slash s' in
      if is_slash c then EmptyString :: r
      else match r with
           | seg :: rest => String c seg :: rest
           | [] => [String c EmptyString]
           end
  end.

(** Join segments with ["/"]. *)
Fixpoint join_slash (segs : list string) : string :=
  match segs with
  | [] => EmptyString
  | [s] => s
  | s :: rest => s ++ String slash (join_slash rest)
  end.

Definition first_is_slash (s : string) : bool :=
  match s with
  | String c _ => is_slash c
  | EmptyString => false
  end.

Fixpoint last_is_slash (s : string) : bool :=
  match s with
  | EmptyString => false
  | String c EmptyString => is_slash c
  | String _ s' => last_is_slash s'
  end.

(** One segment of Node's [normalizeString]: empty and ["."] segments are
    dropped, [".."] removes the last kept segment (or is kept when the path
    may go above its root and the last kept segment is itself [".."]).
    The stack holds the kept segments, last one first. *)
Definition norm_step (allowAboveRoot : bool) (stk : list string) (seg : string)
  : list string :=
  if String.eqb seg "" then stk
  else if String.eqb seg "." then stk
  else if String.eqb seg ".." then
    match stk with
    | top :: rest =>
        if allowAboveRoot && String.eqb top ".." then ".." :: stk else rest
    | [] => if allowAboveRoot then [".."] else []
    end
  else seg :: stk.

Definition normalize_stack (path : string) (allowAboveRoot : bool) : list string :=
  fold_left (norm_step allowAboveRoot) (split_slash path) [].

Definition normalizeString (path : string) (allowAboveRoot : bool) : string :=
  join_slash (rev (normalize_stack path allowAboveRoot)).

(** [path.posix.normalize]. *)
Definition posix_normalize (path : string) : string :=
  if String.eqb path "" then "."
  else
    let isAbsolute := first_is_slash path in
    let trailingSeparator := last_is_slash path in
    let p := normalizeString path (negb isAbsolute) in
    if String.eqb p "" then
      (if isAbsolute then "/" else if trailingSeparator then "./" else ".")
    else
      let p := if trailingSeparator then p ++ "/" else p in
      if isAbsolute then "/" ++ p else p.

(** [path.posix.join]: the non-empty arguments joined with ["/"], then
    normalized. *)
Definition posix_join (args : list string) : string :=
  match filter (fun a => negb (String.eqb a "")) args with
  | [] => "."
  | nonempty => posix_normalize (join_slash nonempty)
  end.

(** [normalizePath (path, basePath)]: [null]/[undefined] are [None]; the
    JavaScript [||] defaults treat the empty string like an absent one. *)
Definition normalizePath (path basePath : option string) : option string :=
  let base := match basePath with
              | Some b => if String.eqb b "" then "/" else b
              | None => "/"
              end in
  let p := match path with Some s => s | None => "" end in
  let joined := posix_join [base; p] in
  let normalized := posix_normalize joined in
  if String.eqb normalized "/" then None else Some normalized.

Example normalizePath_ex1 : normalizePath (Some "users/") None = Some "/users/".
Proof. reflexivity. Qed.
Example normalizePath_ex2 : normalizePath (Some "/a/./b/../c") (Some "/api") = Some "/api/a/c".
Proof. reflexivity. Qed.
Example normalizePath_ex3 : normalizePath (Some "..") None = None.
Proof. reflexivity. Qed.
Example normalizePath_ex4 : normalizePath (Some "//x//") None = Some "/x/".
Proof. reflexivity. Qed.

(* ------------------------------------------------------------------ *)
(** ** JavaScript values, objects and exceptions *)

(** Values as the code inspects them. Functions and objects are known by
    their identity. *)
Inductive jsval :=
| JUndefined
| JNull
| JBool (b : bool)
| JNum (z : Z)
| JStr (s : string)
| JFunc (fid : nat)
| JObj (oid : nat).

Definition truthy (v : jsval) : bool :=
  match v with
  | JUndefined | JNull => false
  | JBool b => b
  | JNum z => negb (Z.eqb z 0)
  | JStr s => negb (String.eqb s "")
  | JFunc _ | JObj _ => true
  end.

(** Strict equality [===]. *)
Definition strict_eq (v w : jsval) : bool :=
  match v, w with
  | JUndefined, JUndefined | JNull, JNull => true
  | JBool a, JBool b => Bool.eqb a b
  | JNum a, JNum b => Z.eqb a b
  | JStr a, JStr b => String.eqb a b
  | JFunc a, JFunc b => Nat.eqb a b
  | JObj a, JObj b => Nat.eqb a b
  | _, _ => false
  end.

(** Association lists: JavaScript objects used as maps, keys in insertion
    order (none of the keys used here is an array index). *)
Fixpoint lookup {K V : Type} (eqb : K -> K -> bool) (k : K) (l : list (K * V))
  : option V :=
  match l with
  | [] => None
  | (k', v) :: rest => if eqb k k' then Some v else lookup eqb k rest
  end.

(** [o[k] = v]: an existing key keeps its position, a new key goes last. *)
Fixpoint assoc_set {K V : Type} (eqb : K -> K -> bool) (k : K) (v : V)
  (l : list (K * V)) : list (K * V) :=
  match l with
  | [] => [(k, v)]
  | (k', v') :: rest =>
      if eqb k k' then (k, v) :: rest else (k', v') :: assoc_set eqb k v rest
  end.

Definition has_key {V : Type} (k : string) (l : list (string * V)) : bool :=
  match lookup String.eqb k l with Some _ => true | None => false end.

(** A plain object: its (own and inherited) properties, and the text
    [JSON.stringify] gives for it ([None] for [undefined]). *)
Record obj := mkObj {
  o_props : list (string * jsval);
  o_json : option string
}.

Definition prop (o : obj) (k : string) : jsval :=
  match lookup String.eqb k (o_props o) with Some v => v | None => JUndefined end.

Inductive exn :=
| TypeError (msg : string)
| RangeError.

Inductive res (A : Type) :=
| Ok (a : A)
| Throw (e : exn).
Arguments Ok {A} a.
Arguments Throw {A} e.

(* ------------------------------------------------------------------ *)
(** ** Resource nodes ([API] instances) *)

(** A request/response example. [example.request || {}] and
    [example.response || {}] are taken as already defaulted.  The query
    parameters are [None] when the property is absent (falsy): an empty
    object still appends ["?"]. *)
Record exreq := mkExReq {
  rq_urlParameters : list (string * string);
  rq_queryParameters : option (list (string * string));
  rq_headers : list (string * string);
  rq_body : option string
}.

(** [status] is [undefined] when absent; [headers] is [None] when absent;
    [body] is [Some v] exactly when ['body' in exampleResponse]. *)
Record exresp := mkExResp {
  rs_status : jsval;
  rs_headers : option (list (string * jsval));
  rs_body : option jsval
}.

Record example := mkExample {
  ex_request : exreq;
  ex_response : exresp
}.

(** Handler parameters: [title], [handler] and [examples] ([None] when the
    property is missing). *)
Record hspec := mkHSpec {
  hs_title : option string;
  hs_handler : jsval;
  hs_examples : option (list example)
}.

(** [beforeEachTest] / [afterEachTest]: unset ([null]), a function that
    calls its continuation synchronously with the given error argument, or
    a truthy value that is not a function. *)
Inductive hook :=
| HookUnset
| HookCalls (err : option string)
| HookNotFunction.

(** The [_parent] slot: [null], another [API] instance, or the wrapper
    [{ exportHandler: exporter }] (object [wid]) around server app [app]. *)
Inductive pref :=
| PNull
| PNode (id : nat)
| PSink (wid : nat) (app : nat).

Record api := mkAPI {
  a_path : option string;
  a_beforeEachTest : hook;
  a_afterEachTest : hook;
  a_parent : pref;
  a_children : list (string * nat);
  a_handlers : list (string * hspec)
}.

Definition set_a_parent (a : api) (p : pref) : api :=
  mkAPI (a_path a) (a_beforeEachTest a) (a_afterEachTest a) p (a_children a) (a_handlers a).
Definition set_a_children (a : api) (c : list (string * nat)) : api :=
  mkAPI (a_path a) (a_beforeEachTest a) (a_afterEachTest a) (a_parent a) c (a_handlers a).
Definition set_a_handlers (a : api) (h : list (string * hspec)) : api :=
  mkAPI (a_path a) (a_beforeEachTest a) (a_afterEachTest a) (a_parent a) (a_children a) h.
Definition set_a_path (a : api) (p : option string) : api :=
  mkAPI p (a_beforeEachTest a) (a_afterEachTest a) (a_parent a) (a_children a) (a_handlers a).

(** A registration performed on a server app: [app[verb](path, handler)]. *)
Record reg := mkReg {
  r_app : nat;
  r_verb : string;
  r_path : option string;
  r_handler : jsval
}.

(** The heap: [API] instances and other objects by identity, the next
    fresh identity, and every registration the server apps received. *)
Record state := mkState {
  st_nodes : list (nat * api);
  st_objs : list (nat * obj);
  st_next : nat;
  st_log : list reg
}.

(** State and exceptions, threaded explicitly. *)
Definition M (A : Type) := state -> res (A * state).

Definition ret {A} (a : A) : M A := fun st => Ok (a, st).
Definition bind {A B} (c : M A) (k : A -> M B) : M B :=
  fun st => match c st with Ok (a, st') => k a st' | Throw e => Throw e end.
Definition throw {A} (e : exn) : M A := fun _ => Throw e.

Notation "x <- c ;; k" := (bind c (fun x => k))
  (at level 61, c at next level, right associativity).
Notation "c ;;; k" := (bind c (fun _ => k)) (at level 61, right associativity).

Fixpoint mapM_ {A} (f : A -> M unit) (l : list A) : M unit :=
  match l with
  | [] => ret tt
  | x :: rest => f x ;;; mapM_ f rest
  end.

Definition get_node (n : nat) : M api :=
  fun st => match lookup Nat.eqb n (st_nodes st) with
            | Some a => Ok (a, st)
            | None => Throw (TypeError "not an API instance")
            end.

Definition put_node (n : nat) (a : api) : M unit :=
  fun st => Ok (tt, mkState (assoc_set Nat.eqb n a (st_nodes st)) (st_objs st)
                             (st_next st) (st_log st)).

Definition get_obj (o : nat) : M obj :=
  fun st => match lookup Nat.eqb o (st_objs st) with
            | Some ob => Ok (ob, st)
            | None => Throw (TypeError "not an object")
            end.

Definition fresh : M nat :=
  fun st => Ok (st_next st, mkState (st_nodes st) (st_objs st) (S (st_next st)) (st_log st)).

Definition log_reg (r : reg) : M unit :=
  fun st => Ok (tt, mkState (st_nodes st) (st_objs st) (st_next st) (st_log st ++ [r])).

(** A value assigned to [parent]: an [API] instance, another object (or
    function object, such as an express app), or a primitive. *)
Inductive pval :=
| VNode (id : nat)
| VObj (oid : nat)
| VPrim (v : jsval).

(** [isServerApp (app)]:
    [!!(app && (app.use || app.handle) && app.get && app.post)].
    An [API] instance has no [use] nor [handle], and a primitive has none
    of these properties. *)
Definition isServerApp_obj (ob : obj) : bool :=
  (truthy (prop ob "use") || truthy (prop ob "handle"))
  && truthy (prop ob "get") && truthy (prop ob "post").

Definition isServerApp (cand : pval) (st : state) : bool :=
  match cand with
  | VObj o => match lookup Nat.eqb o (st_objs st) with
              | Some ob => isServerApp_obj ob
              | None => false
              end
  | _ => false
  end.

(** The exporter returned by [getHandlerExporter (app)]. *)
Definition host_export (app : nat) (method : string) (path : option string)
  (parameters : hspec) : M unit :=
  ob <- get_obj app ;;
  let method := if String.eqb method "del" && has_key "delete" (o_props ob)
                then "delete" else method in
  match prop ob method with
  | JFunc _ => log_reg (mkReg app method path (hs_handler parameters))
  | _ => throw (TypeError "app[method] is not a function")
  end.

(** [exportHandler]: walk up the parent links; every step is a JavaScript
    call, so [fuel] bounds the call stack ([RangeError] when exhausted). *)
Fixpoint exportHandler (fuel : nat) (n : nat) (method : string)
  (path : option string) (parameters : hspec) : M unit :=
  match fuel with
  | 0 => throw RangeError
  | S f =>
      a <- get_node n ;;
      match a_parent a with
      | PNull => ret tt
      | PNode p => exportHandler f p method (normalizePath path (a_path a)) parameters
      | PSink _ app => host_export app method (normalizePath path (a_path a)) parameters
      end
  end.

(** [exportAllHandlers]. *)
Fixpoint exportAllHandlers (fuel : nat) (n : nat) : M unit :=
  match fuel with
  | 0 => throw RangeError
  | S f =>
      a <- get_node n ;;
      match a_parent a with
      | PNull => ret tt
      | _ =>
          mapM_ (fun mh => exportHandler fuel n (fst mh) None (snd mh)) (a_handlers a) ;;;
          mapM_ (fun kc => exportAllHandlers f (snd kc)) (a_children a)
      end
  end.

(** The key [parent.children[this.path]]: [String (null)] is ["null"]. *)
Definition child_key (path : option string) : string :=
  match path with Some s => s | None => "null" end.

Definition same_parent (cand : pval) (p : pref) : bool :=
  match cand, p with
  | VNode i, PNode j => Nat.eqb i j
  | VObj o, PSink w _ => Nat.eqb o w
  | VPrim JNull, PNull => true
  | _, _ => false
  end.

(** [set parent (parent)]. *)
Definition set_parent (fuel : nat) (n : nat) (cand : pval) : M unit :=
  a <- get_node n ;;
  if same_parent cand (a_parent a) then ret tt else
  match cand with
  | VNode p =>
      pa <- get_node p ;;
      put_node p (set_a_children pa (assoc_set String.eqb (child_key (a_path a)) n
                                                (a_children pa))) ;;;
      a' <- get_node n ;;
      put_node n (set_a_parent a' (PNode p)) ;;;
      exportAllHandlers fuel n
  | VObj app =>
      fun st =>
        if isServerApp cand st then
          (wid <- fresh ;;
           a' <- get_node n ;;
           put_node n (set_a_parent a' (PSink wid app)) ;;;
           exportAllHandlers fuel n) st
        else
          (a' <- get_node n ;; put_node n (set_a_parent a' PNull)) st
  | VPrim _ =>
      a' <- get_node n ;; put_node n (set_a_parent a' PNull)
  end.

(** [new API ({})]: the constructor's [this.parent = null] leaves
    [_parent] at [null]. *)
Definition new_api : api := mkAPI None HookUnset HookUnset PNull [] [].

Definition alloc_node (a : api) : M nat :=
  fun st => Ok (st_next st, mkState (st_nodes st ++ [(st_next st, a)]) (st_objs st)
                                    (S (st_next st)) (st_log st)).

(** [this.api (path)], i.e. [selfapi] called on node [n] with one string:
    a fresh [API], its [path] override, then [child.parent = n]. *)
Definition selfapi_child (fuel : nat) (n : nat) (path : string) : M nat :=
  c <- alloc_node new_api ;;
  (if negb (String.eqb path "") then
     a <- get_node c ;; put_node c (set_a_path a (normalizePath (Some path) None))
   else ret tt) ;;;
  set_parent fuel c (VNode n) ;;;
  ret c.

(** [addHandler (method, path, parameters)] with [path] [None] when absent. *)
Definition add_own_handler (fuel : nat) (n : nat) (method : string) (parameters : hspec)
  : M unit :=
  a <- get_node n ;;
  put_node n (set_a_handlers a (assoc_set String.eqb method parameters (a_handlers a))) ;;;
  exportHandler fuel n method None parameters.

Definition addHandler (fuel : nat) (n : nat) (method : string) (path : option string)
  (parameters : hspec) : M unit :=
  match normalizePath path None with
  | None => add_own_handler fuel n method parameters
  | Some p =>
      a <- get_node n ;;
      match lookup String.eqb p (a_children a) with
      | Some c => add_own_handler fuel c method parameters
      | None => c <- selfapi_child fuel n p ;; add_own_handler fuel c method parameters
      end
  end.

(** The two assembly orders of the export protocol: populate the tree
    rooted at [n] with [ops] ([t.addHandler (method, parameters)] on a node
    [t] of the tree) and attach [n] to server app [app], in either order. *)
Definition run_ops (fuel : nat) (ops : list (nat * string * hspec)) : M unit :=
  mapM_ (fun op => match op with (t, m, h) => addHandler fuel t m None h end) ops.

Definition attach (fuel : nat) (n app : nat) : M unit := set_parent fuel n (VObj app).

Definition populate_then_attach (fuel : nat) (n app : nat)
  (ops : list (nat * string * hspec)) : M unit :=
  run_ops fuel ops ;;; attach fuel n app.

Definition attach_then_populate (fuel : nat) (n app : nat)
  (ops : list (nat * string * hspec)) : M unit :=
  attach fuel n app ;;; run_ops fuel ops.

(** The nodes of the tree below [n] that [exportAllHandlers] visits: [n]
    itself, and recursively every child listed in [children] whose own
    parent link is set. *)
Definition parent_of (N : list (nat * api)) (i : nat) : option pref :=
  match lookup Nat.eqb i N with Some a => Some (a_parent a) | None => None end.

Definition handlers_of (N : list (nat * api)) (i : nat) : list (string * hspec) :=
  match lookup Nat.eqb i N with Some a => a_handlers a | None => [] end.

Definition children_of (N : list (nat * api)) (i : nat) : list (string * nat) :=
  match lookup Nat.eqb i N with Some a => a_children a | None => [] end.

Inductive subtree_node (N : list (nat * api)) : nat -> nat -> Prop :=
| subtree_self : forall n, subtree_node N n n
| subtree_child : forall n k c t p,
    In (k, c) (children_of N n) ->
    parent_of N c = Some p -> p <> PNull ->
    subtree_node N c t -> subtree_node N n t.

(** [ops] assigns a handler set: no (node, method) slot twice, and none
    that the node already owns. *)
Definition handler_set (N : list (nat * api)) (ops : list (nat * string * hspec)) : Prop :=
  NoDup (map (fun op => match op with (t, m, _) => (t, m) end) ops) /\
  forall t m h, In (t, m, h) ops -> ~ In m (map fst (handlers_of N t)).

(* ------------------------------------------------------------------ *)
(** ** The self-test engine: string helpers *)

(** [String.prototype.toLowerCase] on ASCII. *)
Definition lower_char (c : ascii) : ascii :=
  let n := nat_of_ascii c in
  if (Nat.leb 65 n) && (Nat.leb n 90) then ascii_of_nat (n + 32) else c.

Fixpoint toLowerCase (s : string) : string :=
  match s with
  | EmptyString => EmptyString
  | String c r => String (lower_char c) (toLowerCase r)
  end.

(** [String.prototype.trim] on ASCII: tab, line feed, vertical tab, form
    feed, carriage return and space. *)
Definition is_ws (c : ascii) : bool :=
  let n := nat_of_ascii c in ((Nat.leb 9 n) && (Nat.leb n 13)) || (Nat.eqb n 32).

Fixpoint trim_start (s : string) : string :=
  match s with
  | String c r => if is_ws c then trim_start r else s
  | EmptyString => EmptyString
  end.

Fixpoint rev_str (s : string) (acc : string) : string :=
  match s with
  | EmptyString => acc
  | String c r => rev_str r (String c acc)
  end.

Definition trim (s : string) : string :=
  rev_str (trim_start (rev_str (trim_start s) EmptyString)) EmptyString.

(** [encodeURIComponent] on ASCII: unreserved characters are kept, the
    others become [%XX]. *)
Definition unreserved (c : ascii) : bool :=
  let n := nat_of_ascii c in
  ((Nat.leb 48 n) && (Nat.leb n 57)) || ((Nat.leb 65 n) && (Nat.leb n 90)) || ((Nat.leb 97 n) && (Nat.leb n 122))
  || existsb (Ascii.eqb c) ["-"; "_"; "."; "!"; "~"; "*"; "'"; "("; ")"]%char.

Definition hex_digit (n : nat) : ascii :=
  ascii_of_nat (if Nat.ltb n 10 then 48 + n else 55 + n).

Fixpoint encodeURIComponent (s : string) : string :=
  match s with
  | EmptyString => EmptyString
  | String c r =>
      (if unreserved c then String c EmptyString
       else String "%" (String (hex_digit (nat_of_ascii c / 16))
                               (String (hex_digit (nat_of_ascii c mod 16)) EmptyString)))
      ++ encodeURIComponent r
  end.

(** [s.replace (new RegExp (pat, 'g'), rep)] for a pattern without regular
    expression metacharacters and a replacement without [$]: every
    occurrence, left to right, without overlap. [n] bounds the scan by the
    length of [s]. *)
Fixpoint replace_all_n (n : nat) (pat rep s : string) : string :=
  match n, s with
  | 0, _ => s
  | _, EmptyString => EmptyString
  | S n', String c r =>
      if negb (String.eqb pat "") && String.prefix pat s
      then rep ++ replace_all_n n' pat rep (substring (String.length pat)
                                                  (String.length s) s)
      else String c (replace_all_n n' pat rep r)
  end.

Definition replace_all (pat rep s : string) : string :=
  replace_all_n (String.length s) pat rep s.

Definition join_with (sep : string) (l : list string) : string :=
  match l with
  | [] => EmptyString
  | x :: rest => fold_left (fun acc y => acc ++ sep ++ y) rest x
  end.

(* ------------------------------------------------------------------ *)
(** ** Scheduling the tests: [exportAllTests] *)

(** A parsed URL: [protocol] (such as ["http:"]), [host] and [pathname].
    The base URLs used here carry no search or hash. *)
Record url := mkURL {
  u_protocol : string;
  u_host : string;
  u_pathname : string
}.

(** [u.pathname = normalizePath (path, u.pathname)] followed by
    [url.parse (url.format (u))]: a [null] pathname formats to no path and
    parses back as ["/"]. *)
Definition rebase (path : option string) (u : url) : url :=
  mkURL (u_protocol u) (u_host u)
        (match normalizePath path (Some (u_pathname u)) with
         | Some p => p
         | None => "/"
         end).

(** [self.testHandlerExample.bind (self, baseUrl, method, handler, example)]. *)
Record tdesc := mkTest {
  t_node : nat;
  t_base : url;
  t_method : string;
  t_handler : hspec;
  t_example : example
}.

Fixpoint concat_res {A B : Type} (g : A -> res (list B)) (l : list A) : res (list B) :=
  match l with
  | [] => Ok []
  | x :: rest =>
      match g x with
      | Ok l1 => match concat_res g rest with Ok l2 => Ok (l1 ++ l2)%list | Throw e => Throw e end
      | Throw e => Throw e
      end
  end.

(** The own tests: [handler.examples.forEach] throws when [examples] is
    missing. *)
Definition own_tests (n : nat) (base : url) (handlers : list (string * hspec))
  : res (list tdesc) :=
  concat_res (fun mh =>
    match hs_examples (snd mh) with
    | None => Throw (TypeError "Cannot read properties of undefined (reading 'forEach')")
    | Some exs => Ok (map (fun ex => mkTest n base (fst mh) (snd mh) ex) exs)
    end) handlers.

(** [exportAllTests (baseUrl, callback)]: the children answer synchronously,
    so the tests come in the order own tests, then each child's in key
    order. *)
Fixpoint exportAllTests (fuel : nat) (N : list (nat * api)) (n : nat) (base : url)
  : res (list tdesc) :=
  match fuel with
  | 0 => Throw RangeError
  | S f =>
      match lookup Nat.eqb n N with
      | None => Throw (TypeError "not an API instance")
      | Some a =>
          match own_tests n base (a_handlers a) with
          | Throw e => Throw e
          | Ok own =>
              match a_children a with
              | [] => Ok own
              | kids =>
                  match concat_res (fun kc => exportAllTests f N (snd kc) (rebase (a_path a) base))
                                   kids with
                  | Ok l => Ok (own ++ l)%list
                  | Throw e => Throw e
                  end
              end
          end
      end
  end.

(* ------------------------------------------------------------------ *)
(** ** One test: the request and the checks of [testHandlerExample] *)

Record request := mkRequest {
  q_protocol : string;
  q_host : string;
  q_path : string;
  q_method : string;
  q_headers : list (string * string);
  q_body : option string
}.

Definition url_parameters (params : list (string * string)) (path : string) : string :=
  fold_left (fun acc kv => replace_all (":" ++ fst kv) (snd kv) acc) params path.

Definition query_pair (kv : string * string) : string :=
  encodeURIComponent (fst kv)
  ++ (if String.eqb (snd kv) "" then "" else "=" ++ encodeURIComponent (snd kv)).

(** [requestOptions.path]: the pathname of the test URL, with the URL
    parameters substituted and the query string appended. *)
Definition request_path (rq : exreq) (pathname : string) : string :=
  let p := url_parameters (rq_urlParameters rq) pathname in
  match rq_queryParameters rq with
  | None => p
  | Some qs => p ++ "?" ++ join_with "&" (map query_pair qs)
  end.

(** The test URL of a test scheduled on node [a]. *)
Definition test_url (a : api) (t : tdesc) : url := rebase (a_path a) (t_base t).

Definition build_request (a : api) (t : tdesc) : request :=
  let tu := test_url a t in
  let rq := ex_request (t_example t) in
  mkRequest (u_protocol tu) (u_host tu) (request_path rq (u_pathname tu)) (t_method t)
            (rq_headers rq) (rq_body rq).

(** [exampleResponse.status || 200] compared with [!==]. *)
Definition status_ok (expected : jsval) (statusCode : Z) : bool :=
  strict_eq (JNum statusCode) (if truthy expected then expected else JNum 200).

(** A response ([http.IncomingMessage]): its status code, its header
    values (under [response.headers], by lower-case name) and the other
    properties of the object itself ([statusCode], [url], ...). *)
Record response := mkResponse {
  rp_statusCode : Z;
  rp_headers : list (string * string);
  rp_props : list (string * jsval)
}.

Definition resp_prop (r : response) (k : string) : jsval :=
  match lookup String.eqb k (rp_props r) with Some v => v | None => JUndefined end.

(** The header loop: [response[header.toLowerCase ()] !== expected],
    stopping at the first mismatch. *)
Fixpoint headers_ok (r : response) (expected : list (string * jsval)) : bool :=
  match expected with
  | [] => true
  | (h, v) :: rest =>
      if strict_eq (resp_prop r (toLowerCase h)) v then headers_ok r rest else false
  end.

(** [maybeJsonStringify (body).trim ()]: objects go through
    [JSON.stringify] (its text is [o_json], [undefined] for a function),
    strings are kept, and [.trim] on anything but a string throws. *)
Definition expected_body (O : list (nat * obj)) (v : jsval) : res string :=
  match v with
  | JStr s => Ok (trim s)
  | JObj o =>
      match lookup Nat.eqb o O with
      | Some ob => match o_json ob with
                   | Some s => Ok (trim s)
                   | None => Throw (TypeError "Cannot read properties of undefined (reading 'trim')")
                   end
      | None => Throw (TypeError "not an object")
      end
  | JFunc _ | JUndefined => Throw (TypeError "Cannot read properties of undefined (reading 'trim')")
  | JNull => Throw (TypeError "Cannot read properties of null (reading 'trim')")
  | JNum _ | JBool _ => Throw (TypeError "trim is not a function")
  end.

(* ------------------------------------------------------------------ *)
(** ** The run: [test] and the events of each request *)

(** [summary.actualResponse]: unset, [{status, headers?, body?}] after a
    failed check, or [{error}] after a request error. *)
Inductive actual :=
| ANone
| AStatus (status : Z) (headers : option (list (string * string))) (body : option string)
| AError (msg : string).

(** Where a request stands: no response yet; a response whose checks so far
    give [success], with [expectedHeaders !== null], [expectedBody] and the
    body received so far; or its [end] handled. *)
Inductive phase :=
| PWaiting
| PReceiving (r : response) (success : bool) (has_headers : bool)
             (expectedBody : option string) (body : string)
| PEnded.

(** One call of [testHandlerExample] that issued its request: its own
    [results] (summary ids; the summary of invocation [i] has id [i]), the
    [afterEachTest] it captured, whether its timer is armed, and its
    summary's [actualResponse] and [response] fields. *)
Record inv := mkInv {
  i_test : tdesc;
  i_req : request;
  i_after : hook;
  i_passed : list nat;
  i_failed : list nat;
  i_timer : bool;
  i_phase : phase;
  i_actual : actual;
  i_response_set : bool
}.

Definition inv_phase (iv : inv) (ph : phase) : inv :=
  mkInv (i_test iv) (i_req iv) (i_after iv) (i_passed iv) (i_failed iv) (i_timer iv) ph
        (i_actual iv) (i_response_set iv).

(** [end] with every check passed: [summary.response = ...],
    [results.passed.push (summary)]. *)
Definition inv_pass (i : nat) (iv : inv) : inv :=
  mkInv (i_test iv) (i_req iv) (i_after iv) (i_passed iv ++ [i]) (i_failed iv) false PEnded
        (i_actual iv) true.

(** [end] with a failed check, or [error]: [summary.actualResponse = act],
    [results.failed.push (summary)]. *)
Definition inv_fail (i : nat) (ph : phase) (act : actual) (iv : inv) : inv :=
  mkInv (i_test iv) (i_req iv) (i_after iv) (i_passed iv) (i_failed iv ++ [i]) false ph
        act (i_response_set iv).

(** The state of a run: the node heap and objects, the tests not yet
    started, the run's [results], the invocations by id, the choices of
    [Math.random], every call of the user's callback (error, passed,
    failed), and the exception that crashed the process, if any. *)
Record gstate := mkG {
  g_nodes : list (nat * api);
  g_objs : list (nat * obj);
  g_tests : list tdesc;
  g_passed : list nat;
  g_failed : list nat;
  g_invs : list (nat * inv);
  g_next : nat;
  g_rand : list nat;
  g_out : list (option string * list nat * list nat);
  g_crash : option exn
}.

Definition crash (e : exn) (g : gstate) : gstate :=
  mkG (g_nodes g) (g_objs g) (g_tests g) (g_passed g) (g_failed g) (g_invs g) (g_next g)
      (g_rand g) (g_out g) (Some e).

(** [callback (error, results)] of the run. *)
Definition emit (err : option string) (g : gstate) : gstate :=
  mkG (g_nodes g) (g_objs g) (g_tests g) (g_passed g) (g_failed g) (g_invs g) (g_next g)
      (g_rand g) (g_out g ++ [(err, g_passed g, g_failed g)]) (g_crash g).

(** [results.failed = results.failed.concat (testResults.failed)] and the
    same for [passed]. *)
Definition merge (p fl : list nat) (g : gstate) : gstate :=
  mkG (g_nodes g) (g_objs g) (g_tests g) (g_passed g ++ p) (g_failed g ++ fl) (g_invs g)
      (g_next g) (g_rand g) (g_out g) (g_crash g).

Definition put_inv (i : nat) (iv : inv) (g : gstate) : gstate :=
  mkG (g_nodes g) (g_objs g) (g_tests g) (g_passed g) (g_failed g)
      (assoc_set Nat.eqb i iv (g_invs g)) (g_next g) (g_rand g) (g_out g) (g_crash g).

Fixpoint splice {A : Type} (i : nat) (l : list A) : option (A * list A) :=
  match l, i with
  | [], _ => None
  | x :: rest, 0 => Some (x, rest)
  | x :: rest, S i' =>
      match splice i' rest with Some (y, rest') => Some (y, x :: rest') | None => None end
  end.

Definition is_http (protocol : string) : bool :=
  String.eqb protocol "https:" || String.eqb protocol "http:".

(** The synchronous part of [testHandlerExample]: the protocol and hook
    checks, [beforeEachTest], then [client.request] and the timer.  Every
    early [callback (error, results)] has empty [results], so the run
    stops with [error]. *)
Definition start_test (t : tdesc) (g : gstate) : gstate :=
  match lookup Nat.eqb (t_node t) (g_nodes g) with
  | None => crash (TypeError "not an API instance") g
  | Some a =>
      if negb (is_http (u_protocol (test_url a t))) then emit (Some "Invalid base site") g
      else match a_beforeEachTest a, a_afterEachTest a with
           | HookNotFunction, _ => emit (Some "beforeEachTest should be a function") g
           | _, HookNotFunction => emit (Some "afterEachTest should be a function") g
           | HookCalls (Some e), _ => emit (Some e) g
           | _, after =>
               let iv := mkInv t (build_request a t) after [] [] true PWaiting ANone false in
               mkG (g_nodes g) (g_objs g) (g_tests g) (g_passed g) (g_failed g)
                   (g_invs g ++ [(g_next g, iv)]) (S (g_next g)) (g_rand g) (g_out g) (g_crash g)
           end
  end.

(** [runNextTest]: complete when no test is left, else take the test at a
    random index ([Math.floor (Math.random () * tests.length)], the next
    choice of [g_rand] taken modulo the length) and start it. *)
Definition run_next (g : gstate) : gstate :=
  match g_tests g with
  | [] => emit None g
  | ts =>
      let '(d, ds) := match g_rand g with [] => (0, []) | d :: ds => (d, ds) end in
      match splice (d mod length ts) ts with
      | Some (t, rest) =>
          start_test t (mkG (g_nodes g) (g_objs g) rest (g_passed g) (g_failed g) (g_invs g)
                            (g_next g) ds (g_out g) (g_crash g))
      | None => g
      end
  end.

(** [afterEachTest (function (error) { callback (error, results); })] and
    the test's callback in [runNextTest]. *)
Definition after_test (iv : inv) (g : gstate) : gstate :=
  match i_after iv with
  | HookNotFunction => crash (TypeError "afterEachTest is not a function") g
  | h =>
      let g1 := merge (i_passed iv) (i_failed iv) g in
      match h with
      | HookCalls (Some e) => emit (Some e) g1
      | _ => run_next g1
      end
  end.

(** What the network does to request [i]. *)
Inductive event :=
| EvResponse (i : nat) (r : response)
| EvData (i : nat) (chunk : string)
| EvEnd (i : nat)
| EvError (i : nat) (msg : string)
| EvTimeout (i : nat).

(** The request's [error] listener. *)
Definition on_error (i : nat) (iv : inv) (msg : string) (g : gstate) : gstate :=
  let iv' := inv_fail i (i_phase iv) (AError msg) iv in
  after_test iv' (put_inv i iv' g).

(** One event.  A crashed process handles nothing more.  The [response]
    callback runs the status and header checks and computes
    [expectedBody] (which may throw); [data] appends a chunk; [end]
    clears the timer, trims and compares the body and records the
    summary; [error] clears the timer and records an error-shaped
    failure; the timer, when still armed, emits [error] with
    ["timed out"] and does nothing else to the request. *)
Definition step (g : gstate) (ev : event) : gstate :=
  match g_crash g with
  | Some _ => g
  | None =>
      match ev with
      | EvResponse i r =>
          match lookup Nat.eqb i (g_invs g) with
          | Some iv =>
              match i_phase iv with
              | PWaiting =>
                  let ex := ex_response (t_example (i_test iv)) in
                  let success :=
                    status_ok (rs_status ex) (rp_statusCode r)
                    && match rs_headers ex with Some hs => headers_ok r hs | None => true end in
                  let has_headers := match rs_headers ex with Some _ => true | None => false end in
                  match rs_body ex with
                  | None => put_inv i (inv_phase iv (PReceiving r success has_headers None "")) g
                  | Some v =>
                      match expected_body (g_objs g) v with
                      | Ok eb => put_inv i (inv_phase iv (PReceiving r success has_headers (Some eb) "")) g
                      | Throw e => crash e g
                      end
                  end
              | _ => g
              end
          | None => g
          end
      | EvData i chunk =>
          match lookup Nat.eqb i (g_invs g) with
          | Some iv =>
              match i_phase iv with
              | PReceiving r success hh eb body =>
                  put_inv i (inv_phase iv (PReceiving r success hh eb (body ++ chunk))) g
              | _ => g
              end
          | None => g
          end
      | EvEnd i =>
          match lookup Nat.eqb i (g_invs g) with
          | Some iv =>
              match i_phase iv with
              | PReceiving r success hh eb body =>
                  let body' := trim body in
                  let success' := success && match eb with
                                             | Some s => String.eqb body' s
                                             | None => true
                                             end in
                  let iv' :=
                    if success' then inv_pass i iv
                    else inv_fail i PEnded
                           (AStatus (rp_statusCode r) (if hh then Some (rp_headers r) else None)
                                    (match eb with Some _ => Some body' | None => None end)) iv in
                  after_test iv' (put_inv i iv' g)
              | _ => g
              end
          | None => g
          end
      | EvError i msg =>
          match lookup Nat.eqb i (g_invs g) with
          | Some iv => on_error i iv msg g
          | None => g
          end
      | EvTimeout i =>
          match lookup Nat.eqb i (g_invs g) with
          | Some iv => if i_timer iv then on_error i iv "timed out" g else g
          | None => g
          end
      end
  end.

Definition run_events (g : gstate) (evs : list event) : gstate := fold_left step evs g.

(** [api.test (baseUrl, callback)] on node [n]: [exportAllTests] (whose
    exceptions escape [test]), then the first [runNextTest]. *)
Definition test (fuel : nat) (N : list (nat * api)) (O : list (nat * obj)) (n : nat)
  (base : url) (rand : list nat) : gstate :=
  match exportAllTests fuel N n base with
  | Throw e => mkG N O [] [] [] [] 0 rand [] (Some e)
  | Ok ts => run_next (mkG N O ts [] [] [] 0 rand [] None)
  end.

(** [child_reach N n t]: node [t] is [n] or is reached from [n] through
    [children] entries, as [exportAllTests] walks the tree. *)
Inductive child_reach (N : list (nat * api)) : nat -> nat -> Prop :=
| reach_self : forall n, child_reach N n n
| reach_child : forall n k c t,
    In (k, c) (children_of N n) -> child_reach N c t -> child_reach N n t.

(* ------------------------------------------------------------------ *)
(** ** Routes up the parent links *)

(** A node's own path as a string: [null] contributes nothing. *)
Definition pstr (p : option string) : string :=
  match p with Some s => s | None => "" end.

(** [export_route N n d s e]: following [parent] from node [n] takes [d]
    steps through [API] nodes and ends at [e] (no parent, or an export
    sink); [s] is the concatenation of the paths met on the way, the
    top-most first. *)
Inductive export_route (N : list (nat * api)) : nat -> nat -> string -> pref -> Prop :=
| route_top : forall n a,
    lookup Nat.eqb n N = Some a -> (forall p, a_parent a <> PNode p) ->
    export_route N n 0 (pstr (a_path a)) (a_parent a)
| route_up : forall n a p d s e,
    lookup Nat.eqb n N = Some a -> a_parent a = PNode p ->
    export_route N p d s e -> export_route N n (S d) (s ++ pstr (a_path a)) e.

(** ** A concrete tree *)

(** An express-like app: [use] and the five verbs. *)
Definition fake_server : obj :=
  mkObj [("use", JFunc 100); ("get", JFunc 101); ("post", JFunc 102); ("patch", JFunc 103);
         ("put", JFunc 104); ("delete", JFunc 105)] None.

(** Root [/api] (detached) with a [get] handler and a child [/users]. *)
Definition c1_state : state :=
  mkState [(0, mkAPI (Some "/api") HookUnset HookUnset PNull [("/users", 1)]
                     [("get", mkHSpec (Some "List") (JFunc 7) (Some []))]);
           (1, mkAPI (Some "/users") HookUnset HookUnset (PNode 0) [] [])]
          [(5, fake_server)] 6 [].

Definition c1_ops : list (nat * string * hspec) :=
  [(0, "post", mkHSpec (Some "Create") (JFunc 8) (Some []));
   (1, "get", mkHSpec (Some "Users") (JFunc 9) (Some []))].

Definition run_final (r : res (unit * state)) (dflt : state) : state :=
  match r with Ok (_, st) => st | Throw _ => dflt end.

(** Objects probed as server apps: verbs without [use]/[handle], and
    [use] with [get]/[post] but no [put]. *)
Definition verbs_only : obj :=
  mkObj [("get", JFunc 111); ("post", JFunc 112); ("put", JFunc 113)] None.
Definition use_get_post : obj :=
  mkObj [("use", JFunc 120); ("get", JFunc 121); ("post", JFunc 122)] None.

Definition c6_state : state :=
  mkState [(0, mkAPI (Some "/api") HookUnset HookUnset PNull []
                     [("get", mkHSpec (Some "List") (JFunc 7) (Some []))])]
          [(2, verbs_only); (3, use_get_post); (5, fake_server)] 6 [].

(** A restify-like app: [del] instead of [delete]. *)
Definition restify_server : obj :=
  mkObj [("use", JFunc 130); ("get", JFunc 131); ("post", JFunc 132); ("put", JFunc 133);
         ("patch", JFunc 134); ("del", JFunc 135)] None.

Definition c7_state : state :=
  mkState [(0, mkAPI (Some "/api") HookUnset HookUnset PNull [] [])]
          [(4, restify_server)] 6 [].

(** [/api] attached to the app, with child [/users] owning a handler. *)
Definition c10_state : state :=
  mkState [(0, mkAPI (Some "/api") HookUnset HookUnset (PSink 6 5) [("/users", 1)]
                     [("get", mkHSpec (Some "List") (JFunc 7) (Some []))]);
           (1, mkAPI (Some "/users") HookUnset HookUnset (PNode 0) []
                     [("get", mkHSpec (Some "Users") (JFunc 9) (Some []))])]
          [(5, fake_server)] 7 [].

(** ** Concrete test runs *)

Definition empty_req : exreq := mkExReq [] None [] None.

Definition local_base : url := mkURL "http:" "localhost:8080" "/".

(** A response with status [status], one [content-type] header and the
    usual own properties of an [IncomingMessage]. *)
Definition incoming (status : Z) (ctype : string) : response :=
  mkResponse status [("content-type", ctype)]
             [("statusCode", JNum status); ("statusMessage", JStr ""); ("url", JStr "");
              ("method", JNull); ("httpVersion", JStr "1.1")].

Definition ping_example : example :=
  mkExample empty_req (mkExResp JUndefined None (Some (JStr "pong"))).

(** [/api] with one [get] handler and one example expecting ["pong"]. *)
Definition ping_nodes : list (nat * api) :=
  [(0, mkAPI (Some "/api") HookUnset HookUnset PNull []
             [("get", mkHSpec (Some "Ping") (JFunc 7) (Some [ping_example]))])].

(** [/api] without handlers, with child [/users] owning one example. *)
Definition users_root : api := mkAPI (Some "/api") HookUnset HookUnset PNull [("/users", 1)] [].

Definition users_handler : hspec := mkHSpec (Some "Users") (JFunc 9) (Some [ping_example]).

Definition users_child : api :=
  mkAPI (Some "/users") HookUnset HookUnset (PNode 0) [] [("get", users_handler)].

Definition users_nodes : list (nat * api) := [(0, users_root); (1, users_child)].

Definition tests_of (r : res (list tdesc)) : list tdesc :=
  match r with Ok ts => ts | Throw _ => [] end.

Definition api_base : url := mkURL "http:" "localhost:8080" "/api".

(** A tree mounted on [fake_server]: [/api], its child [/users/] and its
    grandchild [/:id]. *)
Definition mounted_nodes : list (nat * api) :=
  [(0, mkAPI (Some "/api") HookUnset HookUnset (PSink 6 5) [("/users/", 1)] []);
   (1, mkAPI (Some "/users/") HookUnset HookUnset (PNode 0) [("/:id", 2)] []);
   (2, mkAPI (Some "/:id") HookUnset HookUnset (PNode 1) [] [("get", users_handler)])].

Definition mounted_state : state := mkState mounted_nodes [(5, fake_server)] 7 [].

(* ------------------------------------------------------------------ *)
(** ** Anchors of the HTML documentation ([getAnchor] inside [toHTML]) *)

(** [String (i)] for a natural number: its decimal digits. *)
Definition nat_to_string (n : nat) : string :=
  NilZero.string_of_uint (Nat.to_uint n).

Definition is_dash (c : ascii) : bool := Ascii.eqb c "-"%char.

(** [.replace (/[\s\-]+/g, ' ')]: every maximal run of white space and
    dashes becomes one space; [in_run] tells whether the previous
    character belonged to such a run. *)
Fixpoint collapse_ws_dash (s : string) (in_run : bool) : string :=
  match s with
  | EmptyString => EmptyString
  | String c r =>
      if is_ws c || is_dash c then
        if in_run then collapse_ws_dash r true
        else String " "%char (collapse_ws_dash r true)
      else String c (collapse_ws_dash r false)
  end.

Definition is_lower (c : ascii) : bool :=
  let n := nat_of_ascii c in (Nat.leb 97 n) && (Nat.leb n 122).

Definition is_digit (c : ascii) : bool :=
  let n := nat_of_ascii c in (Nat.leb 48 n) && (Nat.leb n 57).

(** The characters [/[^a-z0-9 ]/g] does not remove. *)
Definition slug_char (c : ascii) : bool :=
  is_lower c || is_digit c || Ascii.eqb c " "%char.

Fixpoint filter_str (f : ascii -> bool) (s : string) : string :=
  match s with
  | EmptyString => EmptyString
  | String c r => if f c then String c (filter_str f r) else filter_str f r
  end.

(** [.replace (/ /g, '-')]. *)
Fixpoint space_to_dash (s : string) : string :=
  match s with
  | EmptyString => EmptyString
  | String c r =>
      String (if Ascii.eqb c " "%char then "-"%char else c) (space_to_dash r)
  end.

(** The first anchor tried for a title (titles are ASCII strings). *)
Definition anchor_slug (title : string) : string :=
  space_to_dash (trim (filter_str slug_char (collapse_ws_dash (toLowerCase title) false))).

(** [anchors.indexOf (s) > -1]. *)
Definition in_anchors (anchors : list string) (s : string) : bool :=
  existsb (String.eqb s) anchors.

Definition suffixed (anchor : string) (i : nat) : string :=
  anchor ++ "-" ++ nat_to_string i.

(** [while (anchors.indexOf (anchor + '-' + i) > -1) { i++; }], run for at
    most [fuel] rounds. *)
Fixpoint find_free (fuel : nat) (anchors : list string) (anchor : string) (i : nat) : nat :=
  match fuel with
  | O => i
  | S f => if in_anchors anchors (suffixed anchor i) then find_free f anchors anchor (S i) else i
  end.

(** [getAnchor (title)] on the shared array [anchors]: the anchor returned
    and the array after [anchors.push (anchor)]. The loop is given one
    round more than there are anchors. *)
Definition getAnchor (anchors : list string) (title : string) : string * list string :=
  let anchor := anchor_slug title in
  let anchor :=
    if in_anchors anchors anchor
    then suffixed anchor (find_free (S (length anchors)) anchors anchor 2)
    else anchor in
  (anchor, (anchors ++ [anchor])%list).

(** The anchors handed out for a sequence of titles, in order, all pushed
    onto the same array (as [toHTML] does for a node, its handlers and,
    through the [anchors] argument, its children). *)
Fixpoint getAnchors (anchors : list string) (titles : list string) : list string * list string :=
  match titles with
  | [] => ([], anchors)
  | t :: ts =>
      let (a, anchors') := getAnchor anchors t in
      let (rest, anchors'') := getAnchors anchors' ts in
      (a :: rest, anchors'')
  end.

(** Every character of a string satisfies [f]. *)
Fixpoint str_forall (f : ascii -> bool) (s : string) : bool :=
  match s with
  | EmptyString => true
  | String c r => f c && str_forall f r
  end.

Definition anchor_char (c : ascii) : bool :=
  is_lower c || is_digit c || is_dash c.

(* ================================================================== *)
(** * Proofs *)

(** ** Path algebra *)
Module PathFacts.

Fixpoint no_slash (s : string) : bool :=
  match s with
  | EmptyString => true
  | String c s' => negb (is_slash c) && no_slash s'
  end.

(** A segment that [normalizeString] keeps as it is. *)
Definition clean (seg : string) : bool :=
  no_slash seg && negb (String.eqb seg "") && negb (String.eqb seg ".")
  && negb (String.eqb seg "..").

(** The shape of every absolute path [posix_normalize] returns. *)
Definition canon (segs : list string) (tr : bool) : string :=
  match segs with
  | [] => "/"
  | _ => String slash (join_slash segs ++ (if tr then "/" else ""))
  end.

Lemma split_slash_not_nil : forall s, split_slash s <> [].
Proof.
  induction s as [|c s IH]; simpl; [discriminate|].
  destruct (is_slash c); [discriminate|].
  destruct (split_slash s); discriminate.
Qed.

Lemma split_slash_app_slash : forall s1 s2,
  split_slash (s1 ++ String slash s2) = (split_slash s1 ++ split_slash s2)%list.
Proof.
  induction s1 as [|c s1 IH]; intros s2; simpl.
  - reflexivity.
  - rewrite IH. destruct (is_slash c); [reflexivity|].
    destruct (split_slash s1) eqn:E; [now destruct (split_slash_not_nil s1)|].
    reflexivity.
Qed.

Lemma split_slash_no_slash : forall s, no_slash s = true -> split_slash s = [s].
Proof.
  induction s as [|c s IH]; simpl; intros H; [reflexivity|].
  apply andb_prop in H as [Hc Hs]. rewrite IH by exact Hs.
  destruct (is_slash c); [discriminate|reflexivity].
Qed.

Lemma split_join : forall segs, segs <> [] -> Forall (fun s => no_slash s = true) segs ->
  split_slash (join_slash segs) = segs.
Proof.
  induction segs as [|s rest IH]; intros Hne Hall; [congruence|].
  inversion Hall as [|? ? Hs Hrest]; subst.
  destruct rest as [|s' rest'].
  - simpl. now apply split_slash_no_slash.
  - change (join_slash (s :: s' :: rest')) with (s ++ String slash (join_slash (s' :: rest'))).
    rewrite split_slash_app_slash, split_slash_no_slash by exact Hs.
    rewrite IH by (discriminate || exact Hrest). reflexivity.
Qed.

Lemma clean_no_slash : forall s, clean s = true -> no_slash s = true.
Proof. unfold clean; intros s H. now repeat (apply andb_prop in H as [H ?]). Qed.

Lemma fold_clean : forall segs stk, Forall (fun s => clean s = true) segs ->
  fold_left (norm_step false) segs stk = (rev segs ++ stk)%list.
Proof.
  induction segs as [|s rest IH]; intros stk Hall; [reflexivity|].
  inversion Hall as [|? ? Hs Hrest]; subst. simpl.
  unfold clean in Hs.
  destruct (String.eqb s "") eqn:E1; [rewrite andb_false_r in Hs; simpl in Hs;
    repeat rewrite andb_false_r in Hs; discriminate|].
  destruct (String.eqb s ".") eqn:E2; [repeat rewrite andb_false_r in Hs; simpl in Hs;
    repeat rewrite andb_false_r in Hs; discriminate|].
  destruct (String.eqb s "..") eqn:E3; [repeat rewrite andb_false_r in Hs; discriminate|].
  unfold norm_step. rewrite E1, E2, E3. rewrite IH by exact Hrest.
  rewrite <- app_assoc. reflexivity.
Qed.

Lemma norm_step_empty : forall b stk, norm_step b stk "" = stk.
Proof. reflexivity. Qed.

Lemma split_slash_all_no_slash : forall s, Forall (fun x => no_slash x = true) (split_slash s).
Proof.
  induction s as [|c s IH]; simpl.
  - constructor; [reflexivity|constructor].
  - destruct (is_slash c) eqn:Ec.
    + constructor; [reflexivity|exact IH].
    + destruct (split_slash s) as [|seg rest] eqn:E.
      * constructor; [simpl; now rewrite Ec|constructor].
      * inversion IH; subst. constructor; [simpl; rewrite Ec; assumption|assumption].
Qed.

Lemma norm_step_clean : forall stk seg,
  Forall (fun x => clean x = true) stk -> no_slash seg = true ->
  Forall (fun x => clean x = true) (norm_step false stk seg).
Proof.
  intros stk seg Hstk Hseg. unfold norm_step.
  destruct (String.eqb seg "") eqn:E1; [exact Hstk|].
  destruct (String.eqb seg ".") eqn:E2; [exact Hstk|].
  destruct (String.eqb seg "..") eqn:E3.
  - destruct stk as [|top rest]; [constructor|]. simpl. now inversion Hstk.
  - constructor; [|exact Hstk]. unfold clean. now rewrite Hseg, E1, E2, E3.
Qed.

Lemma fold_norm_clean : forall segs stk,
  Forall (fun x => clean x = true) stk -> Forall (fun x => no_slash x = true) segs ->
  Forall (fun x => clean x = true) (fold_left (norm_step false) segs stk).
Proof.
  induction segs as [|s rest IH]; intros stk Hstk Hsegs; simpl; [exact Hstk|].
  inversion Hsegs; subst. apply IH; [apply norm_step_clean|]; assumption.
Qed.

Lemma normalize_stack_clean : forall s,
  Forall (fun x => clean x = true) (normalize_stack s false).
Proof.
  intros s. apply fold_norm_clean; [constructor|apply split_slash_all_no_slash].
Qed.

Lemma last_is_slash_app : forall s1 s2, s2 <> EmptyString ->
  last_is_slash (s1 ++ s2) = last_is_slash s2.
Proof.
  induction s1 as [|c s1 IH]; intros s2 Hne; [reflexivity|].
  simpl. rewrite IH by exact Hne.
  destruct s1; simpl; [destruct s2; [congruence|reflexivity]|reflexivity].
Qed.

Lemma no_slash_last : forall s, no_slash s = true -> last_is_slash s = false.
Proof.
  induction s as [|c s IH]; simpl; intros H; [reflexivity|].
  apply andb_prop in H as [Hc Hs].
  destruct s; [now destruct (is_slash c)|]. now apply IH.
Qed.

Lemma clean_nonempty : forall s, clean s = true -> s <> EmptyString.
Proof. intros s H ->. discriminate. Qed.

Lemma join_last : forall segs, segs <> [] -> Forall (fun x => clean x = true) segs ->
  last_is_slash (join_slash segs) = false /\ join_slash segs <> EmptyString.
Proof.
  induction segs as [|s rest IH]; intros Hne Hall; [congruence|].
  inversion Hall as [|? ? Hs Hrest]; subst.
  destruct rest as [|s' rest'].
  - simpl. split; [apply no_slash_last, clean_no_slash, Hs|apply clean_nonempty, Hs].
  - change (join_slash (s :: s' :: rest')) with (s ++ String slash (join_slash (s' :: rest'))).
    rewrite last_is_slash_app by discriminate.
    destruct (IH ltac:(discriminate) Hrest) as [IH1 IH2].
    split.
    + revert IH1 IH2. generalize (join_slash (s' :: rest')). intros j IH1 IH2.
      simpl. destruct j; [congruence|exact IH1].
    + destruct s; [apply clean_nonempty in Hs; congruence|discriminate].
Qed.

Lemma append_empty_r : forall s, s ++ EmptyString = s.
Proof. induction s as [|c s IH]; simpl; [reflexivity|now rewrite IH]. Qed.

Lemma split_slash_cons_slash : forall s,
  split_slash (String slash s) = EmptyString :: split_slash s.
Proof. reflexivity. Qed.

Lemma canon_split : forall segs tr, segs <> [] -> Forall (fun x => clean x = true) segs ->
  split_slash (canon segs tr) =
  (EmptyString :: segs ++ (if tr then [EmptyString] else []))%list.
Proof.
  intros segs tr Hne Hall. destruct segs as [|s rest]; [congruence|].
  assert (Hns : Forall (fun x => no_slash x = true) (s :: rest)).
  { eapply Forall_impl; [|exact Hall]. intros x; apply clean_no_slash. }
  unfold canon. rewrite split_slash_cons_slash.
  f_equal. destruct tr.
  - change "/" with (String slash EmptyString).
    rewrite split_slash_app_slash, split_join by assumption. reflexivity.
  - rewrite append_empty_r, split_join by assumption. now rewrite app_nil_r.
Qed.

Lemma canon_last : forall segs tr, segs <> [] -> Forall (fun x => clean x = true) segs ->
  last_is_slash (canon segs tr) = tr.
Proof.
  intros segs tr Hne Hall. destruct segs as [|s rest]; [congruence|].
  destruct (join_last _ Hne Hall) as [H1 H2].
  unfold canon. remember (s :: rest) as l.
  destruct tr.
  - change (String slash (join_slash l ++ "/")) with ((String slash (join_slash l)) ++ "/").
    rewrite last_is_slash_app by discriminate. reflexivity.
  - rewrite append_empty_r.
    change (String slash (join_slash l)) with ("/" ++ join_slash l).
    rewrite last_is_slash_app by exact H2. exact H1.
Qed.

Lemma fold_empties : forall n stk,
  fold_left (norm_step false) (repeat EmptyString n) stk = stk.
Proof. induction n; intros; simpl; [reflexivity|apply IHn]. Qed.

(** Normalizing a path that is made of [k] leading separators followed by a
    canonical path gives that canonical path back. *)
Fixpoint slashes (k : nat) (s : string) : string :=
  match k with 0 => s | S k' => String slash (slashes k' s) end.

Lemma split_slashes : forall k s,
  split_slash (slashes k s) = (repeat EmptyString k ++ split_slash s)%list.
Proof.
  induction k; intros s; simpl; [reflexivity|].
  rewrite IHk. reflexivity.
Qed.

Lemma last_slashes : forall k s, s <> EmptyString ->
  last_is_slash (slashes k s) = last_is_slash s.
Proof.
  induction k; intros s Hne; simpl; [reflexivity|].
  rewrite IHk by exact Hne. destruct (slashes k s) eqn:E; [|reflexivity].
  destruct k; simpl in E; [congruence|discriminate].
Qed.

Lemma normalize_slashes_canon : forall k segs tr,
  segs <> [] -> Forall (fun x => clean x = true) segs ->
  posix_normalize (slashes k (canon segs tr)) = canon segs tr.
Proof.
  intros k segs tr Hne Hall.
  assert (Hcne : canon segs tr <> EmptyString)
    by (destruct segs; [congruence|discriminate]).
  assert (Hstk : normalize_stack (slashes k (canon segs tr)) false = rev segs).
  { unfold normalize_stack. rewrite split_slashes, canon_split by assumption.
    rewrite fold_left_app. rewrite fold_empties. simpl.
    rewrite fold_left_app, (fold_clean segs) by exact Hall.
    destruct tr; simpl; now rewrite app_nil_r. }
  unfold posix_normalize.
  destruct (String.eqb (slashes k (canon segs tr)) "") eqn:E0.
  { apply String.eqb_eq in E0. destruct k; simpl in E0; [congruence|discriminate]. }
  assert (Hfirst : first_is_slash (slashes k (canon segs tr)) = true).
  { destruct k; simpl; [destruct segs; [congruence|reflexivity]|reflexivity]. }
  rewrite Hfirst, last_slashes, canon_last by assumption. simpl negb.
  unfold normalizeString. rewrite Hstk, rev_involutive.
  destruct (join_last segs Hne Hall) as [_ Hj].
  destruct (String.eqb (join_slash segs) "") eqn:E1; [apply String.eqb_eq in E1; congruence|].
  unfold canon. destruct segs as [|s rest]; [congruence|].
  destruct tr; [reflexivity|]. simpl. now rewrite append_empty_r.
Qed.

Lemma normalize_absolute_shape : forall s, first_is_slash s = true ->
  exists segs tr, Forall (fun x => clean x = true) segs /\ posix_normalize s = canon segs tr.
Proof.
  intros s Hfirst.
  exists (rev (normalize_stack s false)), (last_is_slash s).
  assert (Hc : Forall (fun x => clean x = true) (rev (normalize_stack s false))).
  { apply Forall_rev, normalize_stack_clean. }
  split; [exact Hc|].
  unfold posix_normalize.
  destruct (String.eqb s "") eqn:E0; [apply String.eqb_eq in E0; subst; discriminate|].
  rewrite Hfirst. simpl negb. unfold normalizeString.
  destruct (rev (normalize_stack s false)) as [|x rest] eqn:Er.
  - reflexivity.
  - destruct (join_last (x :: rest) ltac:(discriminate) Hc) as [_ Hj].
    destruct (String.eqb (join_slash (x :: rest)) "") eqn:E1; [apply String.eqb_eq in E1; congruence|].
    unfold canon. destruct (last_is_slash s); [reflexivity|]. simpl. now rewrite append_empty_r.
Qed.

Lemma canon_nil : forall tr, canon [] tr = "/".
Proof. reflexivity. Qed.

Lemma canon_not_root : forall segs tr, segs <> [] -> Forall (fun x => clean x = true) segs ->
  String.eqb (canon segs tr) "/" = false.
Proof.
  intros segs tr Hne Hall. destruct segs as [|s rest]; [congruence|].
  inversion Hall; subst. apply clean_nonempty in H1.
  unfold canon. destruct s; [congruence|]. destruct rest; reflexivity.
Qed.

End PathFacts.

Import PathFacts.

Lemma posix_join_root : forall p,
  posix_join ["/"; p] = if String.eqb p "" then "/" else posix_normalize ("/" ++ String slash p).
Proof.
  intros p. unfold posix_join. simpl.
  destruct (String.eqb p "") eqn:E; reflexivity.
Qed.

Lemma normalize_canon : forall segs tr,
  segs <> [] -> Forall (fun x => clean x = true) segs ->
  posix_normalize (canon segs tr) = canon segs tr.
Proof. intros. exact (normalize_slashes_canon 0 segs tr H H0). Qed.

Lemma normalizePath_shape : forall p,
  normalizePath p None = None \/
  exists segs tr, segs <> [] /\ Forall (fun x => clean x = true) segs /\
    normalizePath p None = Some (canon segs tr).
Proof.
  intros p. unfold normalizePath.
  set (q := match p with Some s => s | None => "" end).
  rewrite posix_join_root.
  destruct (String.eqb q "") eqn:Eq; [left; reflexivity|].
  destruct (normalize_absolute_shape ("/" ++ String slash q) eq_refl) as (segs & tr & Hc & Hn).
  rewrite Hn.
  destruct segs as [|s rest]; [left; reflexivity|].
  right. exists (s :: rest), tr. split; [discriminate|]. split; [exact Hc|].
  rewrite normalize_canon by (discriminate || exact Hc).
  rewrite canon_not_root by (discriminate || exact Hc). reflexivity.
Qed.

Lemma normalizePath_canon : forall segs tr, segs <> [] -> Forall (fun x => clean x = true) segs ->
  normalizePath (Some (canon segs tr)) None = Some (canon segs tr).
Proof.
  intros segs tr Hne Hc. unfold normalizePath. rewrite posix_join_root.
  destruct (String.eqb (canon segs tr) "") eqn:E0.
  { apply String.eqb_eq in E0. destruct segs; [congruence|discriminate]. }
  change ("/" ++ String slash (canon segs tr)) with (slashes 2 (canon segs tr)).
  rewrite normalize_slashes_canon by assumption.
  rewrite normalize_canon by assumption.
  rewrite canon_not_root by assumption. reflexivity.
Qed.

(** C9: [normalizePath] is a total pure function of its argument, and it is
    idempotent: normalizing an already normalized path (or [null]) gives it
    back unchanged. *)
Theorem normalizePath_idempotent : forall p : option string,
  normalizePath (normalizePath p None) None = normalizePath p None.
Proof.
  intros p. destruct (normalizePath_shape p) as [-> | (segs & tr & Hne & Hc & ->)].
  - reflexivity.
  - now apply normalizePath_canon.
Qed.

(** ** The export protocol *)
Module ExportFacts.

(** What a call appends to the registration log, as a function of the
    heap: exports only ever append to [st_log]. *)
Definition host_regs (O : list (nat * obj)) (app : nat) (method : string)
  (path : option string) (parameters : hspec) : res (list reg) :=
  match lookup Nat.eqb app O with
  | None => Throw (TypeError "not an object")
  | Some ob =>
      let method := if String.eqb method "del" && has_key "delete" (o_props ob)
                    then "delete" else method in
      match prop ob method with
      | JFunc _ => Ok [mkReg app method path (hs_handler parameters)]
      | _ => Throw (TypeError "app[method] is not a function")
      end
  end.

Fixpoint eh_regs (fuel : nat) (N : list (nat * api)) (O : list (nat * obj)) (n : nat)
  (method : string) (path : option string) (parameters : hspec) : res (list reg) :=
  match fuel with
  | 0 => Throw RangeError
  | S f =>
      match lookup Nat.eqb n N with
      | None => Throw (TypeError "not an API instance")
      | Some a =>
          match a_parent a with
          | PNull => Ok []
          | PNode p => eh_regs f N O p method (normalizePath path (a_path a)) parameters
          | PSink _ app => host_regs O app method (normalizePath path (a_path a)) parameters
          end
      end
  end.

Fixpoint seq_regs {A : Type} (g : A -> res (list reg)) (l : list A) : res (list reg) :=
  match l with
  | [] => Ok []
  | x :: rest =>
      match g x with
      | Ok l1 => match seq_regs g rest with Ok l2 => Ok (l1 ++ l2)%list | Throw e => Throw e end
      | Throw e => Throw e
      end
  end.

Fixpoint ea_regs (fuel : nat) (N : list (nat * api)) (O : list (nat * obj)) (n : nat)
  : res (list reg) :=
  match fuel with
  | 0 => Throw RangeError
  | S f =>
      match lookup Nat.eqb n N with
      | None => Throw (TypeError "not an API instance")
      | Some a =>
          match a_parent a with
          | PNull => Ok []
          | _ =>
              match seq_regs (fun mh => eh_regs fuel N O n (fst mh) None (snd mh)) (a_handlers a) with
              | Ok l1 =>
                  match seq_regs (fun kc => ea_regs f N O (snd kc)) (a_children a) with
                  | Ok l2 => Ok (l1 ++ l2)%list
                  | Throw e => Throw e
                  end
              | Throw e => Throw e
              end
          end
      end
  end.

Definition log_app (st : state) (l : list reg) : state :=
  mkState (st_nodes st) (st_objs st) (st_next st) (st_log st ++ l).

Definition lift (r : res (list reg)) (st : state) : res (unit * state) :=
  match r with Ok l => Ok (tt, log_app st l) | Throw e => Throw e end.

Lemma log_app_app : forall st l1 l2, log_app (log_app st l1) l2 = log_app st (l1 ++ l2).
Proof. intros [N O k L] l1 l2. unfold log_app; simpl. now rewrite app_assoc. Qed.

Lemma lift_nil : forall st, lift (Ok []) st = Ok (tt, st).
Proof. intros [N O k L]. unfold lift, log_app; simpl. now rewrite app_nil_r. Qed.

Lemma host_export_spec : forall app m p h st,
  host_export app m p h st = lift (host_regs (st_objs st) app m p h) st.
Proof.
  intros app m p h st. unfold host_export, host_regs, get_obj, bind.
  destruct (lookup Nat.eqb app (st_objs st)) as [ob|]; [|reflexivity].
  destruct (prop ob _); reflexivity.
Qed.

Lemma exportHandler_spec : forall fuel n m p h st,
  exportHandler fuel n m p h st = lift (eh_regs fuel (st_nodes st) (st_objs st) n m p h) st.
Proof.
  induction fuel as [|f IH]; intros n m p h st; [reflexivity|].
  simpl. unfold bind, get_node.
  destruct (lookup Nat.eqb n (st_nodes st)) as [a|]; [|reflexivity].
  destruct (a_parent a); [symmetry; apply lift_nil|apply IH|apply host_export_spec].
Qed.

Lemma mapM_spec : forall {A} (f : A -> M unit) (g : A -> res (list reg)) l st,
  (forall x l', In x l -> f x (log_app st l') = lift (g x) (log_app st l')) ->
  mapM_ f l st = lift (seq_regs g l) st.
Proof.
  intros A f g l. induction l as [|x rest IH]; intros st Hf.
  - simpl. unfold ret, lift, log_app. destruct st; simpl. now rewrite app_nil_r.
  - simpl. unfold bind.
    assert (Hx := Hf x [] (or_introl eq_refl)).
    assert (Hst : log_app st [] = st) by (destruct st; unfold log_app; simpl; now rewrite app_nil_r).
    rewrite Hst in Hx. rewrite Hx.
    destruct (g x) as [l1|e]; [|reflexivity]. simpl.
    rewrite IH.
    + destruct (seq_regs g rest); [|reflexivity]. simpl. now rewrite log_app_app.
    + intros y l' Hy. rewrite log_app_app. apply Hf. now right.
Qed.

Lemma exportAll_spec : forall fuel n st,
  exportAllHandlers fuel n st = lift (ea_regs fuel (st_nodes st) (st_objs st) n) st.
Proof.
  induction fuel as [|f IH]; intros n st; [reflexivity|].
  cbn [exportAllHandlers ea_regs]. unfold bind at 1, get_node.
  destruct (lookup Nat.eqb n (st_nodes st)) as [a|] eqn:Ha; [|reflexivity].
  destruct (a_parent a) eqn:Hp; [symmetry; apply lift_nil| |];
  (unfold bind;
   rewrite (mapM_spec _ (fun mh => eh_regs (S f) (st_nodes st) (st_objs st) n (fst mh) None (snd mh)));
   [|intros x l' _; rewrite exportHandler_spec; reflexivity];
   destruct (seq_regs _ (a_handlers a)) as [l1|e]; [|reflexivity]; simpl;
   rewrite (mapM_spec _ (fun kc => ea_regs f (st_nodes st) (st_objs st) (snd kc)));
   [|intros x l' _; rewrite IH; reflexivity];
   destruct (seq_regs _ (a_children a)) as [l2|e]; [|reflexivity]; simpl;
   now rewrite log_app_app).
Qed.

(** *** Association lists *)

Section Assoc.
Context {K V : Type} (eqb : K -> K -> bool)
        (eqb_spec : forall a b, eqb a b = true <-> a = b).

Lemma eqb_refl_gen : forall a, eqb a a = true.
Proof. intros a. now apply eqb_spec. Qed.

Lemma lookup_assoc_set : forall (l : list (K * V)) k v i,
  lookup eqb i (assoc_set eqb k v l) = if eqb i k then Some v else lookup eqb i l.
Proof.
  induction l as [|[k' v'] rest IH]; intros k v i; simpl.
  - destruct (eqb i k); reflexivity.
  - destruct (eqb k k') eqn:Ekk'.
    + apply eqb_spec in Ekk'. subst k'. simpl. destruct (eqb i k); reflexivity.
    + simpl. rewrite IH. destruct (eqb i k') eqn:Eik'; [|reflexivity].
      apply eqb_spec in Eik'. subst i.
      destruct (eqb k' k) eqn:E; [|reflexivity].
      apply eqb_spec in E. subst. now rewrite eqb_refl_gen in Ekk'.
Qed.

Lemma assoc_set_fresh : forall (l : list (K * V)) k v,
  ~ In k (map fst l) -> assoc_set eqb k v l = (l ++ [(k, v)])%list.
Proof.
  induction l as [|[k' v'] rest IH]; intros k v Hk; simpl; [reflexivity|].
  destruct (eqb k k') eqn:E.
  - apply eqb_spec in E. subst. simpl in Hk. tauto.
  - rewrite IH; [reflexivity|]. intros Hin. apply Hk. now right.
Qed.

End Assoc.

Lemma lookup_set_node : forall (N : list (nat * api)) k v i,
  lookup Nat.eqb i (assoc_set Nat.eqb k v N) = if Nat.eqb i k then Some v else lookup Nat.eqb i N.
Proof. intros. apply lookup_assoc_set. apply Nat.eqb_eq. Qed.

(** *** Heaps that agree on the links of every node *)

Definition links (a : api) : option string * pref * list (string * nat) :=
  (a_path a, a_parent a, a_children a).

Definition same_links (N1 N2 : list (nat * api)) : Prop :=
  forall i, option_map links (lookup Nat.eqb i N1) = option_map links (lookup Nat.eqb i N2).

Lemma same_links_sym : forall N1 N2, same_links N1 N2 -> same_links N2 N1.
Proof. intros N1 N2 H i. symmetry. apply H. Qed.

Lemma same_links_trans : forall N1 N2 N3, same_links N1 N2 -> same_links N2 N3 -> same_links N1 N3.
Proof. intros N1 N2 N3 H1 H2 i. now rewrite H1, H2. Qed.

(** [exportHandler] reads the path and parent link of each node only. *)
Lemma eh_regs_links : forall fuel N1 N2 O n m p h, same_links N1 N2 ->
  eh_regs fuel N1 O n m p h = eh_regs fuel N2 O n m p h.
Proof.
  induction fuel as [|f IH]; intros N1 N2 O n m p h Hs; [reflexivity|].
  simpl. specialize (Hs n) as Hn.
  destruct (lookup Nat.eqb n N1) as [a1|], (lookup Nat.eqb n N2) as [a2|]; try discriminate; [|reflexivity].
  simpl in Hn. injection Hn as Hpath Hpar Hch. rewrite Hpath, Hpar.
  destruct (a_parent a2); [reflexivity| |reflexivity]. now apply IH.
Qed.

(** More stack never changes a successful export. *)
Lemma eh_regs_mono : forall fuel fuel' N O n m p h l,
  eh_regs fuel N O n m p h = Ok l -> fuel <= fuel' -> eh_regs fuel' N O n m p h = Ok l.
Proof.
  induction fuel as [|f IH]; intros fuel' N O n m p h l Hok Hle; [discriminate|].
  destruct fuel' as [|f']; [lia|]. simpl in *.
  destruct (lookup Nat.eqb n N) as [a|]; [|discriminate].
  destruct (a_parent a); try assumption. apply IH; [assumption|lia].
Qed.

Lemma eh_regs_det : forall f1 f2 N O n m p h l1 l2,
  eh_regs f1 N O n m p h = Ok l1 -> eh_regs f2 N O n m p h = Ok l2 -> l1 = l2.
Proof.
  intros f1 f2 N O n m p h l1 l2 H1 H2.
  apply (eh_regs_mono _ (Nat.max f1 f2)) in H1; [|lia].
  apply (eh_regs_mono _ (Nat.max f1 f2)) in H2; [|lia].
  congruence.
Qed.

(** Attaching the detached node [n] only turns exports that stopped at [n]
    into exports that reach the server app. *)
Lemma eh_regs_attach : forall fuel N O n a w app t m p h l,
  lookup Nat.eqb n N = Some a -> a_parent a = PNull ->
  eh_regs fuel N O t m p h = Ok l ->
  l = [] \/ eh_regs fuel (assoc_set Nat.eqb n (set_a_parent a (PSink w app)) N) O t m p h = Ok l.
Proof.
  induction fuel as [|f IH]; intros N O n a w app t m p h l Hn Hpar Hok; [discriminate|].
  simpl in Hok |- *. rewrite lookup_set_node.
  destruct (Nat.eqb t n) eqn:Etn.
  - apply Nat.eqb_eq in Etn. subst t. rewrite Hn, Hpar in Hok. left. congruence.
  - destruct (lookup Nat.eqb t N) as [b|]; [|discriminate].
    destruct (a_parent b); [left; congruence| |right; exact Hok].
    eapply IH; eassumption.
Qed.

(** *** What [exportAllHandlers] exports *)

Lemma seq_regs_in : forall {A} (g : A -> res (list reg)) l L x,
  seq_regs g l = Ok L -> In x l -> exists l', g x = Ok l' /\ incl l' L.
Proof.
  intros A g l. induction l as [|y rest IH]; intros L x Hok Hin; [destruct Hin|].
  simpl in Hok. destruct (g y) as [l1|] eqn:Hy; [|discriminate].
  destruct (seq_regs g rest) as [l2|] eqn:Hr; [|discriminate].
  injection Hok as <-. destruct Hin as [<-|Hin].
  - exists l1. split; [exact Hy|]. intros z Hz. apply in_or_app. now left.
  - destruct (IH l2 x eq_refl Hin) as (l' & Hx & Hincl). exists l'. split; [exact Hx|].
    intros z Hz. apply in_or_app. right. now apply Hincl.
Qed.

Lemma seq_regs_out : forall {A} (g : A -> res (list reg)) l L x,
  seq_regs g l = Ok L -> In x L -> exists y l', In y l /\ g y = Ok l' /\ In x l'.
Proof.
  intros A g l. induction l as [|y rest IH]; intros L x Hok Hin.
  - simpl in Hok. injection Hok as <-. destruct Hin.
  - simpl in Hok. destruct (g y) as [l1|] eqn:Hy; [|discriminate].
    destruct (seq_regs g rest) as [l2|] eqn:Hr; [|discriminate].
    injection Hok as <-. apply in_app_or in Hin as [Hin|Hin].
    + exists y, l1. split; [now left|]. auto.
    + destruct (IH l2 x eq_refl Hin) as (z & l' & ? & ? & ?). exists z, l'.
      split; [now right|]. auto.
Qed.

Lemma ea_regs_S : forall f N O n, ea_regs (S f) N O n =
  match lookup Nat.eqb n N with
  | None => Throw (TypeError "not an API instance")
  | Some a =>
      match a_parent a with
      | PNull => Ok []
      | _ =>
          match seq_regs (fun mh => eh_regs (S f) N O n (fst mh) None (snd mh)) (a_handlers a) with
          | Ok l1 =>
              match seq_regs (fun kc => ea_regs f N O (snd kc)) (a_children a) with
              | Ok l2 => Ok (l1 ++ l2)%list
              | Throw e => Throw e
              end
          | Throw e => Throw e
          end
      end
  end.
Proof. reflexivity. Qed.

Lemma ea_regs_nonempty : forall fuel N O n L,
  ea_regs fuel N O n = Ok L -> L <> [] ->
  exists p, parent_of N n = Some p /\ p <> PNull.
Proof.
  intros [|f] N O n L Hok Hne; [discriminate|]. simpl in Hok. unfold parent_of.
  destruct (lookup Nat.eqb n N) as [a|]; [|discriminate].
  destruct (a_parent a) as [| id | w app]; [congruence| |];
    eexists; split; (reflexivity || discriminate).
Qed.

(** Every handler of every node of the tree is exported by
    [exportAllHandlers] on an attached root. *)
Lemma ea_regs_visits : forall N O n t,
  subtree_node N n t ->
  forall fuel L p m h, ea_regs fuel N O n = Ok L ->
  parent_of N n = Some p -> p <> PNull ->
  In (m, h) (handlers_of N t) ->
  exists g l', g <= fuel /\ eh_regs g N O t m None h = Ok l' /\ incl l' L.
Proof.
  intros N O n t Hsub. induction Hsub as [n | n k c t pc Hc Hpc Hpcne Hsub IH];
    intros fuel L p m h Hok Hp Hpne Hmh.
  - destruct fuel as [|f]; [discriminate|]. rewrite ea_regs_S in Hok.
    unfold parent_of, handlers_of in *.
    destruct (lookup Nat.eqb n N) as [a|]; [|discriminate].
    injection Hp as Hp. rewrite Hp in Hok.
    destruct p as [| id | w app]; [congruence| |];
    (destruct (seq_regs _ (a_handlers a)) as [l1|] eqn:H1; [|discriminate];
     destruct (seq_regs _ (a_children a)) as [l2|] eqn:H2; [|discriminate];
     injection Hok as <-;
     destruct (seq_regs_in _ _ _ _ H1 Hmh) as (l' & Hl' & Hincl);
     exists (S f), l'; split; [lia|]; split; [exact Hl'|];
     intros z Hz; apply in_or_app; left; now apply Hincl).
  - destruct fuel as [|f]; [discriminate|]. rewrite ea_regs_S in Hok.
    unfold parent_of, children_of in *.
    destruct (lookup Nat.eqb n N) as [a|]; [|discriminate].
    injection Hp as Hp. rewrite Hp in Hok.
    destruct p as [| id | w app]; [congruence| |];
    (destruct (seq_regs _ (a_handlers a)) as [l1|] eqn:H1; [|discriminate];
     destruct (seq_regs _ (a_children a)) as [l2|] eqn:H2; [|discriminate];
     injection Hok as <-;
     destruct (seq_regs_in _ _ _ _ H2 Hc) as (l' & Hl' & Hincl);
     destruct (IH f l' pc m h Hl' Hpc Hpcne Hmh) as (g & l'' & Hg & Hl'' & Hincl');
     exists g, l''; split; [lia|]; split; [exact Hl''|];
     intros z Hz; apply in_or_app; right; apply Hincl, Hincl', Hz).
Qed.

(** Conversely, everything [exportAllHandlers] exports is the export of a
    handler of a node of the tree. *)
Lemma ea_regs_sources : forall fuel N O n L x,
  ea_regs fuel N O n = Ok L -> In x L ->
  exists t m h g l', subtree_node N n t /\ In (m, h) (handlers_of N t) /\ g <= fuel /\
    eh_regs g N O t m None h = Ok l' /\ In x l'.
Proof.
  induction fuel as [|f IH]; intros N O n L x Hok Hx; [discriminate|].
  rewrite ea_regs_S in Hok. destruct (lookup Nat.eqb n N) as [a|] eqn:Ha; [|discriminate].
  destruct (a_parent a) as [| id | w app] eqn:Hp;
    [injection Hok as <-; destruct Hx| |];
  (destruct (seq_regs _ (a_handlers a)) as [l1|] eqn:H1; [|discriminate];
   destruct (seq_regs _ (a_children a)) as [l2|] eqn:H2; [|discriminate];
   injection Hok as <-; apply in_app_or in Hx as [Hx|Hx];
   [ destruct (seq_regs_out _ _ _ _ H1 Hx) as ([m h] & l' & Hin & Hl' & Hxl');
     exists n, m, h, (S f), l'; repeat split; try assumption; try lia;
     [constructor | unfold handlers_of; now rewrite Ha]
   | destruct (seq_regs_out _ _ _ _ H2 Hx) as ([k c] & l' & Hin & Hl' & Hxl');
     destruct (IH _ _ _ _ _ Hl' Hxl') as (t & m & h & g & l'' & Hsub & Hmh & Hg & Hl'' & Hx'');
     destruct (ea_regs_nonempty _ _ _ _ _ Hl' ltac:(intros ->; destruct Hxl')) as (pc & Hpc & Hpcne);
     exists t, m, h, g, l''; repeat split; try assumption; try lia;
     eapply subtree_child; [unfold children_of; rewrite Ha; exact Hin|exact Hpc|exact Hpcne|exact Hsub] ]).
Qed.

(** The tree only grows when parent links are set and children are kept. *)
Lemma subtree_node_mono : forall N1 N2,
  (forall i, children_of N1 i = children_of N2 i) ->
  (forall i p, parent_of N1 i = Some p -> p <> PNull ->
     exists p', parent_of N2 i = Some p' /\ p' <> PNull) ->
  forall n t, subtree_node N1 n t -> subtree_node N2 n t.
Proof.
  intros N1 N2 Hch Hpar n t Hsub. induction Hsub as [n | n k c t pc Hc Hpc Hpcne Hsub IH].
  - constructor.
  - destruct (Hpar c pc Hpc Hpcne) as (p' & Hp' & Hp'ne).
    eapply subtree_child; [rewrite <- Hch; exact Hc|exact Hp'|exact Hp'ne|exact IH].
Qed.

Lemma subtree_node_links : forall N1 N2, same_links N1 N2 ->
  forall n t, subtree_node N1 n t -> subtree_node N2 n t.
Proof.
  intros N1 N2 Hs. apply subtree_node_mono.
  - intros i. unfold children_of. specialize (Hs i).
    destruct (lookup Nat.eqb i N1), (lookup Nat.eqb i N2); try discriminate; [|reflexivity].
    simpl in Hs. now injection Hs.
  - intros i p Hp Hpne. exists p. split; [|exact Hpne]. unfold parent_of in *. specialize (Hs i).
    destruct (lookup Nat.eqb i N1), (lookup Nat.eqb i N2); try discriminate.
    simpl in Hs. injection Hs as _ Hpp _. rewrite <- Hpp. exact Hp.
Qed.

(** *** Populating the tree *)

Lemma same_links_set : forall N i a b, lookup Nat.eqb i N = Some a -> links b = links a ->
  same_links N (assoc_set Nat.eqb i b N).
Proof.
  intros N i a b Ha Hb j. rewrite lookup_set_node.
  destruct (Nat.eqb j i) eqn:E; [|reflexivity].
  apply Nat.eqb_eq in E. subst j. rewrite Ha. simpl. now rewrite Hb.
Qed.

Lemma normalizePath_none : normalizePath None None = None.
Proof. reflexivity. Qed.

Lemma handlers_of_set : forall N i b j,
  handlers_of (assoc_set Nat.eqb i b N) j = if Nat.eqb j i then a_handlers b else handlers_of N j.
Proof.
  intros N i b j. unfold handlers_of. rewrite lookup_set_node. now destruct (Nat.eqb j i).
Qed.

Lemma run_ops_spec : forall f ops N O k L0 st',
  (forall t m h, In (t, m, h) ops -> exists a, lookup Nat.eqb t N = Some a) ->
  handler_set N ops ->
  run_ops f ops (mkState N O k L0) = Ok (tt, st') ->
  exists N' L, st' = mkState N' O k (L0 ++ L) /\ same_links N N' /\
    (forall t mh, In mh (handlers_of N' t) <->
                  In mh (handlers_of N t) \/ In (t, fst mh, snd mh) ops) /\
    (forall t m h, In (t, m, h) ops -> exists l, eh_regs f N O t m None h = Ok l /\ incl l L) /\
    (forall x, In x L -> exists t m h l,
        In (t, m, h) ops /\ eh_regs f N O t m None h = Ok l /\ In x l).
Proof.
  intros f ops. induction ops as [|[[t m] h] rest IH]; intros N O k L0 st' Hex [Hnd Hfr] Hrun.
  - simpl in Hrun. injection Hrun as <-. exists N, []. rewrite app_nil_r.
    split; [reflexivity|]. split; [intros i; reflexivity|]. split; [|split].
    + intros t mh. simpl. tauto.
    + intros t m h [].
    + intros x [].
  - destruct (Hex t m h (or_introl eq_refl)) as [a Ha].
    unfold run_ops in Hrun. simpl mapM_ in Hrun. unfold bind at 1 in Hrun.
    unfold addHandler in Hrun. rewrite normalizePath_none in Hrun.
    unfold add_own_handler, bind, get_node, put_node in Hrun. simpl st_nodes in Hrun.
    rewrite Ha in Hrun. simpl in Hrun.
    set (b := set_a_handlers a (assoc_set String.eqb m h (a_handlers a))) in Hrun.
    set (N1 := assoc_set Nat.eqb t b N) in Hrun.
    assert (Hs1 : same_links N N1) by (apply (same_links_set _ _ a); [exact Ha|reflexivity]).
    rewrite exportHandler_spec in Hrun. simpl st_nodes in Hrun. simpl st_objs in Hrun.
    rewrite <- (eh_regs_links _ _ _ _ _ _ _ _ Hs1) in Hrun.
    destruct (eh_regs f N O t m None h) as [l1|e] eqn:Hl1; [|discriminate].
    unfold lift, log_app in Hrun. simpl in Hrun.
    assert (Hfr_t : ~ In m (map fst (a_handlers a))).
    { pose proof (Hfr t m h (or_introl eq_refl)) as H. unfold handlers_of in H. now rewrite Ha in H. }
    assert (Hb : a_handlers b = (a_handlers a ++ [(m, h)])%list).
    { unfold b, set_a_handlers. simpl. apply assoc_set_fresh; [apply String.eqb_eq|exact Hfr_t]. }
    assert (Hh1 : forall j, handlers_of N1 j =
              if Nat.eqb j t then (handlers_of N j ++ [(m, h)])%list else handlers_of N j).
    { intros j. unfold N1. rewrite handlers_of_set. destruct (Nat.eqb j t) eqn:E; [|reflexivity].
      apply Nat.eqb_eq in E. subst j. unfold handlers_of. rewrite Ha. exact Hb. }
    inversion Hnd as [|? ? Hnotin Hnd']. subst.
    destruct (IH N1 O k (L0 ++ l1)%list st') as (N' & L & Hst & Hs' & Hh' & Hin' & Hout');
      [ | split | exact Hrun | ].
    + intros t' m' h' Hop. destruct (Hex t' m' h' (or_intror Hop)) as [a' Ha'].
      unfold N1. rewrite lookup_set_node. destruct (Nat.eqb t' t); eauto.
    + exact Hnd'.
    + intros t' m' h' Hop. rewrite Hh1. destruct (Nat.eqb t' t) eqn:E.
      * apply Nat.eqb_eq in E. subst t'. rewrite map_app. simpl. intros Hm.
        apply in_app_or in Hm as [Hm|[Hm|[]]].
        -- exact (Hfr t m' h' (or_intror Hop) Hm).
        -- subst m'. apply Hnotin. apply in_map_iff. exists (t, m, h'). auto.
      * exact (Hfr t' m' h' (or_intror Hop)).
    + exists N', (l1 ++ L)%list. rewrite app_assoc. split; [exact Hst|].
      split; [exact (same_links_trans _ _ _ Hs1 Hs')|]. split; [|split].
      * intros j mh. rewrite Hh'. rewrite Hh1. destruct (Nat.eqb j t) eqn:E.
        -- apply Nat.eqb_eq in E. subst j. rewrite in_app_iff. simpl.
           destruct mh as [m0 h0]. simpl. split.
           ++ intros [[H|[H|[]]]|H]; [tauto| |tauto]. injection H as -> ->. tauto.
           ++ intros [H|[H|H]]; [tauto| |tauto]. injection H as -> ->. tauto.
        -- simpl. split; [tauto|]. intros [H|[H|H]]; [tauto| |tauto].
           injection H as -> _ _. now rewrite Nat.eqb_refl in E.
      * intros t' m' h' [Hop|Hop].
        -- injection Hop as <- <- <-. exists l1. split; [exact Hl1|].
           intros z Hz. apply in_or_app. now left.
        -- destruct (Hin' t' m' h' Hop) as (l & Hl & Hincl).
           rewrite <- (eh_regs_links _ _ _ _ _ _ _ _ Hs1) in Hl.
           exists l. split; [exact Hl|]. intros z Hz. apply in_or_app. right. now apply Hincl.
      * intros x Hx. apply in_app_or in Hx as [Hx|Hx].
        -- exists t, m, h, l1. split; [now left|]. auto.
        -- destruct (Hout' x Hx) as (t' & m' & h' & l & Hop & Hl & Hxl).
           rewrite <- (eh_regs_links _ _ _ _ _ _ _ _ Hs1) in Hl.
           exists t', m', h', l. split; [now right|]. auto.
Qed.

(** *** Attaching the root *)

Lemma attach_spec : forall f n app N O k L a,
  lookup Nat.eqb n N = Some a -> a_parent a = PNull ->
  isServerApp (VObj app) (mkState N O k L) = true ->
  attach f n app (mkState N O k L) =
  lift (ea_regs f (assoc_set Nat.eqb n (set_a_parent a (PSink k app)) N) O n)
       (mkState (assoc_set Nat.eqb n (set_a_parent a (PSink k app)) N) O (S k) L).
Proof.
  intros f n app N O k L a Ha Hp Hsrv. unfold attach, set_parent, bind at 1, get_node.
  simpl st_nodes. rewrite Ha, Hp. change (same_parent (VObj app) PNull) with false. cbv beta iota.
  rewrite Hsrv. unfold bind, fresh, get_node, put_node. simpl. rewrite Ha.
  rewrite exportAll_spec. reflexivity.
Qed.

Lemma children_of_set : forall N i b j,
  children_of (assoc_set Nat.eqb i b N) j = if Nat.eqb j i then a_children b else children_of N j.
Proof.
  intros N i b j. unfold children_of. rewrite lookup_set_node. now destruct (Nat.eqb j i).
Qed.

Lemma parent_of_set : forall N i b j,
  parent_of (assoc_set Nat.eqb i b N) j = if Nat.eqb j i then Some (a_parent b) else parent_of N j.
Proof.
  intros N i b j. unfold parent_of. rewrite lookup_set_node. now destruct (Nat.eqb j i).
Qed.

Lemma same_links_set2 : forall N1 N2 i b1 b2, same_links N1 N2 -> links b1 = links b2 ->
  same_links (assoc_set Nat.eqb i b1 N1) (assoc_set Nat.eqb i b2 N2).
Proof.
  intros N1 N2 i b1 b2 Hs Hb j. rewrite !lookup_set_node.
  destruct (Nat.eqb j i); [cbn [option_map]; now f_equal|apply Hs].
Qed.

Lemma same_links_lookup : forall N1 N2 i a1, same_links N1 N2 -> lookup Nat.eqb i N1 = Some a1 ->
  exists a2, lookup Nat.eqb i N2 = Some a2 /\ links a2 = links a1.
Proof.
  intros N1 N2 i a1 Hs H1. specialize (Hs i). rewrite H1 in Hs.
  destruct (lookup Nat.eqb i N2) as [a2|]; [|discriminate].
  exists a2. split; [reflexivity|]. cbn [option_map] in Hs. congruence.
Qed.

Lemma subtree_exists : forall N n t, subtree_node N n t ->
  (exists a, lookup Nat.eqb n N = Some a) -> exists a, lookup Nat.eqb t N = Some a.
Proof.
  intros N n t Hsub. induction Hsub as [n | n k c t p Hc Hp Hpne Hsub IH]; [tauto|].
  intros _. apply IH. unfold parent_of in Hp.
  destruct (lookup Nat.eqb c N) as [ac|]; [eauto|discriminate].
Qed.

(** Setting the root's parent link keeps every node of its tree. *)
Lemma subtree_attach : forall N n a P, lookup Nat.eqb n N = Some a -> P <> PNull ->
  forall t, subtree_node N n t -> subtree_node (assoc_set Nat.eqb n (set_a_parent a P) N) n t.
Proof.
  intros N n a P Ha HP. apply subtree_node_mono.
  - intros i. rewrite children_of_set. destruct (Nat.eqb i n) eqn:E; [|reflexivity].
    apply Nat.eqb_eq in E. subst i. unfold children_of. now rewrite Ha.
  - intros i p Hp Hpne. rewrite parent_of_set. destruct (Nat.eqb i n); eauto.
Qed.

(** [addHandler (method, parameters)] without a path stores the handler
    and exports it at once: it appends to the log exactly what
    [exportHandler] registers from the node. *)
Lemma addHandler_exports_now : forall f t m h s s',
  addHandler f t m None h s = Ok (tt, s') ->
  exists l, eh_regs f (st_nodes s) (st_objs s) t m None h = Ok l /\
            st_log s' = (st_log s ++ l)%list.
Proof.
  intros f t m h [N O k L] s' H. unfold addHandler in H. rewrite normalizePath_none in H.
  unfold add_own_handler, bind, get_node, put_node in H. simpl st_nodes in H.
  destruct (lookup Nat.eqb t N) as [a|] eqn:Ea; [|discriminate].
  rewrite exportHandler_spec in H. simpl in H.
  set (b := set_a_handlers a (assoc_set String.eqb m h (a_handlers a))) in H.
  assert (Hs : same_links N (assoc_set Nat.eqb t b N))
    by (apply (same_links_set _ _ a); [exact Ea|reflexivity]).
  rewrite <- (eh_regs_links _ _ _ _ _ _ _ _ Hs) in H.
  destruct (eh_regs f N O t m None h) as [l|e] eqn:E; [|discriminate].
  injection H as <-. exists l. split; [exact E|reflexivity].
Qed.

End ExportFacts.

Import ExportFacts.

(** C1: attaching a tree of API nodes to a server app and adding its
    handlers commute.  Take a detached root [n], a supported server app
    [app], and a set [ops] of new handlers for nodes of [n]'s tree (each
    one fills a (node, method) slot that neither the tree nor another
    element of [ops] already holds).  Adding
    the handlers and then attaching [n] registers the same routes on the app
    as attaching [n] first and then adding the handlers: every registration
    (verb, full path, handler) made in one order is made in the other.
    Along the way: when [n] is attached after being populated, the
    attachment itself registers every handler of every node of its tree
    (those it owned before and the new ones), as [exportHandler] computes
    them on the final tree; when [n] is attached first, the registrations
    of every new handler follow the attachment; and each
    [addHandler (method, parameters)] call appends its node's
    [exportHandler] registrations to the log at once. *)
Theorem attach_order_independent : forall f st n app ops stA stB,
  parent_of (st_nodes st) n = Some PNull ->
  isServerApp (VObj app) st = true ->
  (forall t m h, In (t, m, h) ops -> subtree_node (st_nodes st) n t) ->
  handler_set (st_nodes st) ops ->
  populate_then_attach f n app ops st = Ok (tt, stA) ->
  attach_then_populate f n app ops st = Ok (tt, stB) ->
  (forall x, In x (st_log stA) <-> In x (st_log stB)) /\
  (exists st1 L, run_ops f ops st = Ok (tt, st1) /\ st_log stA = (st_log st1 ++ L)%list /\
     forall t m h, subtree_node (st_nodes st) n t -> In (m, h) (handlers_of (st_nodes st1) t) ->
       exists g l, eh_regs g (st_nodes stA) (st_objs stA) t m None h = Ok l /\ incl l L) /\
  (exists st1 L, attach f n app st = Ok (tt, st1) /\ st_log stB = (st_log st1 ++ L)%list /\
     forall t m h, In (t, m, h) ops ->
       exists l, eh_regs f (st_nodes st1) (st_objs st1) t m None h = Ok l /\ incl l L) /\
  (forall t m h s s', addHandler f t m None h s = Ok (tt, s') ->
     exists l, eh_regs f (st_nodes s) (st_objs s) t m None h = Ok l /\
               st_log s' = (st_log s ++ l)%list).
Proof.
  intros f [N O k L0] n app ops stA stB Hpn Hsrv Hops Hset HA HB. simpl in *.
  unfold parent_of in Hpn. destruct (lookup Nat.eqb n N) as [a|] eqn:Ha; [|discriminate].
  injection Hpn as Hpa.
  assert (Hex : forall t m h, In (t, m, h) ops -> exists a, lookup Nat.eqb t N = Some a)
    by (intros t m h Hop; eapply subtree_exists; [exact (Hops t m h Hop)|eauto]).
  (* Populate, then attach. *)
  unfold populate_then_attach, bind in HA.
  destruct (run_ops f ops (mkState N O k L0)) as [[[] stA1]|] eqn:HrA; [|discriminate].
  destruct (run_ops_spec f ops N O k L0 stA1 Hex Hset HrA)
    as (N' & LA & -> & Hs' & Hh' & _ & HoutA).
  destruct (same_links_lookup N N' n a Hs' Ha) as (a' & Ha' & Hla').
  assert (Hpa' : a_parent a' = PNull) by (unfold links in Hla'; congruence).
  rewrite (attach_spec f n app N' O k (L0 ++ LA) a' Ha' Hpa' Hsrv) in HA.
  set (NA := assoc_set Nat.eqb n (set_a_parent a' (PSink k app)) N') in HA.
  destruct (ea_regs f NA O n) as [EA|] eqn:HEA; [|discriminate].
  injection HA as <-.
  (* Attach, then populate. *)
  unfold attach_then_populate, bind in HB.
  rewrite (attach_spec f n app N O k L0 a Ha Hpa Hsrv) in HB.
  set (NB := assoc_set Nat.eqb n (set_a_parent a (PSink k app)) N) in HB.
  destruct (ea_regs f NB O n) as [EB|] eqn:HEB; [|discriminate].
  unfold lift, log_app in HB. simpl in HB.
  assert (HhB : forall j, handlers_of NB j = handlers_of N j).
  { intros j. unfold NB. rewrite handlers_of_set. destruct (Nat.eqb j n) eqn:E; [|reflexivity].
    apply Nat.eqb_eq in E. subst j. unfold handlers_of. now rewrite Ha. }
  assert (HexB : forall t m h, In (t, m, h) ops -> exists a, lookup Nat.eqb t NB = Some a).
  { intros t m h Hop. unfold NB. rewrite lookup_set_node. destruct (Nat.eqb t n); eauto. }
  assert (HsetB : handler_set NB ops).
  { destruct Hset as [Hnd Hfr]. split; [exact Hnd|]. intros t m h Hop. rewrite HhB. eauto. }
  destruct (run_ops_spec f ops NB O (S k) (L0 ++ EB) stB HexB HsetB HB)
    as (NB' & LB & -> & _ & _ & HinB & HoutB).
  (* The two heaps agree on every link. *)
  assert (HsAB : same_links NA NB).
  { unfold NA, NB. apply same_links_set2; [now apply same_links_sym|].
    unfold links in *. simpl. congruence. }
  assert (HpA : parent_of NA n = Some (PSink k app))
    by (unfold NA; rewrite parent_of_set, Nat.eqb_refl; reflexivity).
  assert (HpB : parent_of NB n = Some (PSink k app))
    by (unfold NB; rewrite parent_of_set, Nat.eqb_refl; reflexivity).
  assert (HhA : forall j mh, In mh (handlers_of NA j) <->
                  In mh (handlers_of N j) \/ In (j, fst mh, snd mh) ops).
  { intros j mh. rewrite <- Hh'. unfold NA. rewrite handlers_of_set.
    destruct (Nat.eqb j n) eqn:E; [|reflexivity].
    apply Nat.eqb_eq in E. subst j. unfold handlers_of. rewrite Ha'. reflexivity. }
  assert (HnullA : PSink k app <> PNull) by discriminate.
  split; [|split; [|split]].
  2:{ (* populating, then attaching: the attachment exports the whole tree *)
    exists (mkState N' O k (L0 ++ LA)), EA. split; [first [exact HrA | reflexivity]|]. split; [reflexivity|].
    intros t m h Hsub Hmh. simpl in Hmh.
    assert (HmhA : In (m, h) (handlers_of NA t)) by (apply HhA; apply Hh' in Hmh; exact Hmh).
    assert (HsubA : subtree_node NA n t).
    { apply (subtree_node_links NB); [now apply same_links_sym|].
      apply subtree_attach; [exact Ha|discriminate|exact Hsub]. }
    destruct (ea_regs_visits NA O n t HsubA f EA _ m h HEA HpA HnullA HmhA)
      as (g & l & _ & Hl & Hincl).
    exists g, l. split; [exact Hl|exact Hincl]. }
  2:{ (* attaching, then populating: every new handler is exported *)
    exists (mkState NB O (S k) (L0 ++ EB)), LB. split.
    { rewrite (attach_spec f n app N O k L0 a Ha Hpa Hsrv). unfold NB in HEB. rewrite HEB.
      reflexivity. }
    split; [reflexivity|]. intros t m h Hop. exact (HinB t m h Hop). }
  2:{ intros t m h s s' Hs. exact (addHandler_exports_now f t m h s s' Hs). }
  simpl. intros x. rewrite <- !app_assoc. rewrite !in_app_iff.
  split; (intros [Hx|Hx]; [now left|right]).
  - destruct Hx as [Hx|Hx].
    + (* exported by [addHandler] before the attachment *)
      destruct (HoutA x Hx) as (t & m & h & l & Hop & Hl & Hxl).
      destruct (eh_regs_attach f N O n a k app t m None h l Ha Hpa Hl) as [->|Hl']; [destruct Hxl|].
      fold NB in Hl'. right.
      destruct (HinB t m h Hop) as (lB & HlB & Hincl).
      rewrite (eh_regs_det _ _ _ _ _ _ _ _ _ _ Hl' HlB) in Hxl. now apply Hincl.
    + (* exported by [exportAllHandlers] on attachment *)
      destruct (ea_regs_sources f NA O n EA x HEA Hx)
        as (t & m & h & g & l' & Hsub & Hmh & Hg & Hl' & Hxl).
      rewrite (eh_regs_links _ _ _ _ _ _ _ _ HsAB) in Hl'.
      apply HhA in Hmh as [Hmh|Hop]; simpl in *.
      * left. rewrite <- HhB in Hmh.
        destruct (ea_regs_visits NB O n t (subtree_node_links _ _ HsAB _ _ Hsub)
                    f EB _ m h HEB HpB HnullA Hmh) as (g2 & l2 & _ & Hl2 & Hincl).
        rewrite (eh_regs_det _ _ _ _ _ _ _ _ _ _ Hl' Hl2) in Hxl. now apply Hincl.
      * right. destruct (HinB t m h Hop) as (lB & HlB & Hincl).
        rewrite (eh_regs_det _ _ _ _ _ _ _ _ _ _ Hl' HlB) in Hxl. now apply Hincl.
  - destruct Hx as [Hx|Hx].
    + (* exported by [exportAllHandlers] on attachment *)
      destruct (ea_regs_sources f NB O n EB x HEB Hx)
        as (t & m & h & g & l' & Hsub & Hmh & Hg & Hl' & Hxl).
      rewrite HhB in Hmh.
      assert (HmhA : In (m, h) (handlers_of NA t)) by (apply HhA; now left).
      destruct (ea_regs_visits NA O n t
                  (subtree_node_links _ _ (same_links_sym _ _ HsAB) _ _ Hsub)
                  f EA _ m h HEA HpA HnullA HmhA) as (g2 & l2 & _ & Hl2 & Hincl).
      rewrite (eh_regs_links _ _ _ _ _ _ _ _ HsAB) in Hl2.
      rewrite (eh_regs_det _ _ _ _ _ _ _ _ _ _ Hl' Hl2) in Hxl. right. now apply Hincl.
    + (* exported by [addHandler] after the attachment *)
      destruct (HoutB x Hx) as (t & m & h & l & Hop & Hl & Hxl).
      assert (HmhA : In (m, h) (handlers_of NA t)) by (apply HhA; now right).
      assert (Hsub : subtree_node NA n t).
      { apply (subtree_node_links NB); [now apply same_links_sym|].
        apply subtree_attach; [exact Ha|discriminate|exact (Hops t m h Hop)]. }
      destruct (ea_regs_visits NA O n t Hsub f EA _ m h HEA HpA HnullA HmhA)
        as (g2 & l2 & _ & Hl2 & Hincl).
      rewrite (eh_regs_links _ _ _ _ _ _ _ _ HsAB) in Hl2.
      rewrite (eh_regs_det _ _ _ _ _ _ _ _ _ _ Hl Hl2) in Hxl. right. now apply Hincl.
Qed.

Lemma attach_order_independent_witness :
  In (mkReg 5 "post" (Some "/api") (JFunc 8)) (st_log (run_final (populate_then_attach 100 0 5 c1_ops c1_state) c1_state)) <->
  In (mkReg 5 "post" (Some "/api") (JFunc 8)) (st_log (run_final (attach_then_populate 100 0 5 c1_ops c1_state) c1_state)).
Proof.
  apply (attach_order_independent 100 c1_state 0 5 c1_ops).
  - reflexivity.
  - vm_compute. reflexivity.
  - intros t m h Hop. simpl in Hop. destruct Hop as [H|[H|[]]]; injection H as <- <- <-.
    + apply subtree_self.
    + apply (subtree_child _ 0 "/users" 1 1 (PNode 0)).
      * simpl. left. reflexivity.
      * reflexivity.
      * discriminate.
      * apply subtree_self.
  - split.
    + simpl. constructor; [intros [H|[]]; discriminate|].
      constructor; [intros []|constructor].
    + intros t m h Hop. simpl in Hop. destruct Hop as [H|[H|[]]]; injection H as <- <- <-;
        simpl; intros H; repeat destruct H as [H|H]; try discriminate; contradiction.
  - vm_compute. reflexivity.
  - vm_compute. reflexivity.
Defined.

(** ** Assigning a parent *)

Lemma exportAll_nodes : forall f n st st',
  exportAllHandlers f n st = Ok (tt, st') -> st_nodes st' = st_nodes st.
Proof.
  intros f n st st' H. rewrite exportAll_spec in H.
  destruct (ea_regs f (st_nodes st) (st_objs st) n); [|discriminate].
  injection H as <-. reflexivity.
Qed.

Lemma children_of_set_parent : forall N i b P j, lookup Nat.eqb i N = Some b ->
  children_of (assoc_set Nat.eqb i (set_a_parent b P) N) j = children_of N j.
Proof.
  intros N i b P j Hb. rewrite children_of_set. destruct (Nat.eqb j i) eqn:E; [|reflexivity].
  apply Nat.eqb_eq in E. subst j. unfold children_of. now rewrite Hb.
Qed.

(** C6: the server-app probe of [set parent].  Assigning an object [o] to
    a node's [parent] (when it is not the node's current parent) accepts
    [o] exactly when [o] has a truthy [use] or [handle] and truthy [get]
    and [post] ([put] plays no part): the node is then linked to a fresh
    export sink wrapping [o] and all its handlers are re-exported; any
    other object leaves the node detached ([_parent] null), exporting
    nothing. *)
Theorem set_parent_probe : forall f n o st a ob,
  lookup Nat.eqb n (st_nodes st) = Some a ->
  same_parent (VObj o) (a_parent a) = false ->
  lookup Nat.eqb o (st_objs st) = Some ob ->
  set_parent f n (VObj o) st =
  if (truthy (prop ob "use") || truthy (prop ob "handle"))
     && truthy (prop ob "get") && truthy (prop ob "post")
  then lift (ea_regs f (assoc_set Nat.eqb n (set_a_parent a (PSink (st_next st) o)) (st_nodes st))
                     (st_objs st) n)
            (mkState (assoc_set Nat.eqb n (set_a_parent a (PSink (st_next st) o)) (st_nodes st))
                     (st_objs st) (S (st_next st)) (st_log st))
  else Ok (tt, mkState (assoc_set Nat.eqb n (set_a_parent a PNull) (st_nodes st))
                       (st_objs st) (st_next st) (st_log st)).
Proof.
  intros f n o [N O k L] a ob Ha Hsame Hob. cbn [st_nodes st_objs st_next st_log] in *.
  unfold set_parent, bind at 1, get_node. simpl st_nodes. rewrite Ha, Hsame.
  unfold isServerApp. simpl st_objs. rewrite Hob. unfold isServerApp_obj.
  destruct ((truthy (prop ob "use") || truthy (prop ob "handle"))
            && truthy (prop ob "get") && truthy (prop ob "post")).
  - unfold bind, fresh, get_node, put_node. simpl. rewrite Ha. apply exportAll_spec.
  - unfold bind, get_node, put_node. simpl. rewrite Ha. reflexivity.
Qed.

Lemma set_parent_probe_witness :
  set_parent 100 0 (VObj 5) c6_state =
  lift (ea_regs 100 (assoc_set Nat.eqb 0 (set_a_parent (mkAPI (Some "/api") HookUnset HookUnset PNull []
                     [("get", mkHSpec (Some "List") (JFunc 7) (Some []))]) (PSink 6 5)) (st_nodes c6_state))
                (st_objs c6_state) 0)
       (mkState (assoc_set Nat.eqb 0 (set_a_parent (mkAPI (Some "/api") HookUnset HookUnset PNull []
                     [("get", mkHSpec (Some "List") (JFunc 7) (Some []))]) (PSink 6 5)) (st_nodes c6_state))
                (st_objs c6_state) 7 (st_log c6_state)).
Proof.
  exact (set_parent_probe 100 0 5 c6_state _ fake_server eq_refl eq_refl eq_refl).
Defined.

(** C6 fails: an object with [get], [post] and [put] but neither [use] nor
    [handle] is rejected (the node stays detached), while one with [use],
    [get] and [post] and no [put] is accepted. *)
Lemma set_parent_probe_counterexample :
  isServerApp (VObj 2) c6_state = false /\
  parent_of (st_nodes (run_final (set_parent 100 0 (VObj 2) c6_state) c6_state)) 0 = Some PNull /\
  isServerApp (VObj 3) c6_state = true /\
  parent_of (st_nodes (run_final (set_parent 100 0 (VObj 3) c6_state) c6_state)) 0 = Some (PSink 6 3).
Proof. vm_compute. repeat split. Qed.

(** C7 (as the code stands): exporting a [delete] handler to an app whose
    [delete] entry point is missing throws a [TypeError], whatever alias
    ([del]) the app offers: the exporter only renames [del] to [delete]. *)
Theorem export_delete_without_delete_throws : forall app ob path h st,
  lookup Nat.eqb app (st_objs st) = Some ob ->
  lookup String.eqb "delete" (o_props ob) = None ->
  host_export app "delete" path h st = Throw (TypeError "app[method] is not a function").
Proof.
  intros app ob path h st Hob Hdel. unfold host_export, bind, get_obj.
  rewrite Hob. simpl. unfold prop. now rewrite Hdel.
Qed.

Lemma export_delete_without_delete_throws_witness :
  lookup String.eqb "del" (o_props restify_server) = Some (JFunc 135) /\
  host_export 4 "delete" (Some "/api") (mkHSpec None (JFunc 10) (Some [])) c7_state
  = Throw (TypeError "app[method] is not a function").
Proof.
  split; [reflexivity|].
  apply (export_delete_without_delete_throws 4 restify_server); reflexivity.
Defined.

(** C10: assigning a node [n] a new parent (anything but [p] itself)
    leaves the [children] of every other node [p] as they were, so [n]
    stays listed under its path in its old parent; but [n]'s handlers are
    exported only through [n]'s own, new parent link: once [n] is
    detached, [exportAllHandlers] on [n] (as called by [p]'s) exports
    nothing. *)
Theorem set_parent_old_parent_children : forall f st n p cand st',
  cand <> VNode p ->
  set_parent f n cand st = Ok (tt, st') ->
  children_of (st_nodes st') p = children_of (st_nodes st) p /\
  (parent_of (st_nodes st') n = Some PNull ->
   forall g, exportAllHandlers (S g) n st' = Ok (tt, st')).
Proof.
  intros f st n p cand st' Hne Hset. split.
  - unfold set_parent, bind at 1, get_node in Hset.
    destruct (lookup Nat.eqb n (st_nodes st)) as [a|] eqn:Ha; [|discriminate].
    destruct (same_parent cand (a_parent a)); [now injection Hset as <-|].
    destruct cand as [q|o|v].
    + unfold bind, get_node, put_node in Hset. simpl in Hset.
      destruct (lookup Nat.eqb q (st_nodes st)) as [aq|] eqn:Haq; [|discriminate].
      simpl in Hset. rewrite lookup_set_node in Hset.
      set (N1 := assoc_set Nat.eqb q _ (st_nodes st)) in Hset.
      destruct (Nat.eqb n q) eqn:Enq.
      * apply Nat.eqb_eq in Enq. subst q.
        apply exportAll_nodes in Hset. simpl in Hset. rewrite Hset.
        rewrite children_of_set. destruct (Nat.eqb p n) eqn:Epn.
        -- apply Nat.eqb_eq in Epn. subst p. congruence.
        -- unfold N1. rewrite children_of_set, Epn. reflexivity.
      * rewrite Ha in Hset.
        apply exportAll_nodes in Hset. simpl in Hset. rewrite Hset.
        rewrite children_of_set_parent; [|unfold N1; rewrite lookup_set_node, Enq; exact Ha].
        unfold N1. rewrite children_of_set. destruct (Nat.eqb p q) eqn:Epq; [|reflexivity].
        apply Nat.eqb_eq in Epq. subst p. congruence.
    + destruct (isServerApp (VObj o) st).
      * unfold bind, fresh, get_node, put_node in Hset. simpl in Hset. rewrite Ha in Hset.
        apply exportAll_nodes in Hset. simpl in Hset. rewrite Hset.
        now apply children_of_set_parent.
      * unfold bind, get_node, put_node in Hset. rewrite Ha in Hset.
        injection Hset as <-. simpl. now apply children_of_set_parent.
    + unfold bind, get_node, put_node in Hset. rewrite Ha in Hset.
      injection Hset as <-. simpl. now apply children_of_set_parent.
  - intros Hnull g. unfold parent_of in Hnull. simpl. unfold bind, get_node.
    destruct (lookup Nat.eqb n (st_nodes st')) as [a|]; [|discriminate].
    injection Hnull as ->. reflexivity.
Qed.

Lemma set_parent_old_parent_children_witness :
  children_of (st_nodes (run_final (set_parent 100 1 (VPrim JNull) c10_state) c10_state)) 0
    = children_of (st_nodes c10_state) 0 /\
  (parent_of (st_nodes (run_final (set_parent 100 1 (VPrim JNull) c10_state) c10_state)) 1
     = Some PNull ->
   forall g, exportAllHandlers (S g) 1 (run_final (set_parent 100 1 (VPrim JNull) c10_state) c10_state)
             = Ok (tt, run_final (set_parent 100 1 (VPrim JNull) c10_state) c10_state)).
Proof.
  apply (set_parent_old_parent_children 100 c10_state 1 0 (VPrim JNull)).
  - discriminate.
  - vm_compute. reflexivity.
Defined.

(** C10 fails: after [/users] is detached, [/api] still lists it, yet
    [/api]'s [exportAllHandlers] no longer registers [/users]' handler at
    [/api/users]. *)
Lemma set_parent_old_parent_children_counterexample :
  children_of (st_nodes (run_final (set_parent 100 1 (VPrim JNull) c10_state) c10_state)) 0
    = [("/users", 1)] /\
  In (mkReg 5 "get" (Some "/api/users") (JFunc 9))
     (st_log (run_final (exportAllHandlers 100 0 c10_state) c10_state)) /\
  ~ In (mkReg 5 "get" (Some "/api/users") (JFunc 9))
       (st_log (run_final (exportAllHandlers 100 0
          (run_final (set_parent 100 1 (VPrim JNull) c10_state) c10_state))
          (run_final (set_parent 100 1 (VPrim JNull) c10_state) c10_state))).
Proof.
  vm_compute. split; [reflexivity|]. split.
  - right. left. reflexivity.
  - intros H. repeat destruct H as [H|H]; try discriminate; contradiction.
Qed.

(** ** The self-test engine *)

(** C2 (as the code stands): the status check compares the actual status
    code with [!==] against [exampleResponse.status || 200]; a predicate
    is never called, and an example whose status is a function fails for
    every status code. *)
Theorem status_predicate_never_passes : forall fid status,
  status_ok (JFunc fid) status = false.
Proof. reflexivity. Qed.

(** C3 (as the code stands): an expected header is compared with the
    property of the response object named after the lower-cased header,
    not with the header value under [response.headers]; when the object
    has no such property, any expectation other than [undefined] fails
    whatever headers the response carries. *)
Theorem header_check_reads_response_object : forall r h v,
  lookup String.eqb (toLowerCase h) (rp_props r) = None ->
  v <> JUndefined ->
  headers_ok r [(h, v)] = false.
Proof.
  intros r h v Hnone Hv. simpl. unfold resp_prop. rewrite Hnone.
  destruct v; simpl; congruence.
Qed.

Lemma header_check_reads_response_object_witness :
  lookup String.eqb "content-type" (rp_headers (incoming 200 "text/plain")) = Some "text/plain" /\
  headers_ok (incoming 200 "text/plain") [("Content-Type", JStr "text/plain")] = false.
Proof.
  split; [reflexivity|].
  apply header_check_reads_response_object; [reflexivity|discriminate].
Defined.

Lemma concat_res_in : forall {A B} (g : A -> res (list B)) l L x,
  concat_res g l = Ok L -> In x l -> exists l', g x = Ok l' /\ incl l' L.
Proof.
  intros A B g l. induction l as [|y rest IH]; intros L x Hok Hin; [destruct Hin|].
  simpl in Hok. destruct (g y) as [l1|] eqn:Hy; [|discriminate].
  destruct (concat_res g rest) as [l2|] eqn:Hr; [|discriminate].
  injection Hok as <-. destruct Hin as [<-|Hin].
  - exists l1. split; [exact Hy|]. intros z Hz. apply in_or_app. now left.
  - destruct (IH l2 x eq_refl Hin) as (l' & Hx & Hincl). exists l'. split; [exact Hx|].
    intros z Hz. apply in_or_app. right. now apply Hincl.
Qed.

Lemma own_tests_in : forall n base hs l m h exs ex,
  own_tests n base hs = Ok l -> In (m, h) hs -> hs_examples h = Some exs -> In ex exs ->
  In (mkTest n base m h ex) l.
Proof.
  intros n base hs l m h exs ex Hok Hmh Hexs Hex. unfold own_tests in Hok.
  destruct (concat_res_in _ _ _ _ Hok Hmh) as (l' & Hl' & Hincl).
  simpl in Hl'. rewrite Hexs in Hl'. injection Hl' as <-.
  apply Hincl. apply in_map_iff. exists ex. split; [reflexivity|exact Hex].
Qed.

Lemma exportAllTests_S : forall f N n base, exportAllTests (S f) N n base =
  match lookup Nat.eqb n N with
  | None => Throw (TypeError "not an API instance")
  | Some a =>
      match own_tests n base (a_handlers a) with
      | Throw e => Throw e
      | Ok own =>
          match a_children a with
          | [] => Ok own
          | kids =>
              match concat_res (fun kc => exportAllTests f N (snd kc) (rebase (a_path a) base))
                               kids with
              | Ok l => Ok (own ++ l)%list
              | Throw e => Throw e
              end
          end
      end
  end.
Proof. reflexivity. Qed.

(** C4, as the code behaves: every example of a child [c] of [n] is
    scheduled by [n.test (base)] with the base URL rebased on [n]'s own
    path, and its request goes to that URL rebased again on [c]'s path:
    both the parent's and the child's paths are appended to the base
    URL's pathname. *)
Theorem child_test_url : forall fuel N n an c ac k m h exs ex base tests,
  lookup Nat.eqb n N = Some an -> lookup Nat.eqb c N = Some ac ->
  In (k, c) (a_children an) -> In (m, h) (a_handlers ac) ->
  hs_examples h = Some exs -> In ex exs ->
  exportAllTests fuel N n base = Ok tests ->
  exists t, In t tests /\ t_node t = c /\ t_example t = ex /\
    test_url ac t = rebase (a_path ac) (rebase (a_path an) base).
Proof.
  intros fuel N n an c ac k m h exs ex base tests Han Hac Hkc Hmh Hexs Hex Hok.
  destruct fuel as [|f]; [discriminate|]. rewrite exportAllTests_S, Han in Hok.
  destruct (own_tests n base (a_handlers an)) as [own|] eqn:Hown; [|discriminate].
  destruct (a_children an) as [|kc0 kids] eqn:Hkids; [destruct Hkc|].
  destruct (concat_res _ (kc0 :: kids)) as [l|] eqn:Hl; [|discriminate].
  injection Hok as <-.
  destruct (concat_res_in _ _ _ _ Hl Hkc) as (lc & Hlc & Hincl). cbv beta in Hlc.
  simpl snd in Hlc.
  destruct f as [|f']; [discriminate|]. rewrite exportAllTests_S, Hac in Hlc.
  destruct (own_tests c (rebase (a_path an) base) (a_handlers ac)) as [ownc|] eqn:Hownc;
    [|discriminate].
  pose proof (own_tests_in _ _ _ _ _ _ _ _ Hownc Hmh Hexs Hex) as Hin.
  exists (mkTest c (rebase (a_path an) base) m h ex). split; [|split; [reflexivity|split; reflexivity]].
  apply in_or_app. right. apply Hincl.
  destruct (a_children ac) as [|kc1 kids1].
  - injection Hlc as <-. exact Hin.
  - destruct (concat_res _ (kc1 :: kids1)) as [l1|]; [|discriminate]. injection Hlc as <-.
    apply in_or_app. now left.
Qed.

Lemma child_test_url_witness :
  (exists t, In t (tests_of (exportAllTests 100 users_nodes 0 api_base)) /\ t_node t = 1 /\
     t_example t = ping_example /\
     test_url users_child t = rebase (Some "/users") (rebase (Some "/api") api_base)) /\
  u_pathname (rebase (Some "/users") (rebase (Some "/api") api_base)) = "/api/api/users" /\
  u_pathname (rebase (Some "/users") (rebase (Some "/api") local_base)) = "/api/users".
Proof.
  split; [|split; reflexivity].
  apply (child_test_url 100 users_nodes 0 users_root 1 users_child "/users" "get" users_handler
           [ping_example]); try reflexivity; simpl; auto.
Defined.

(** C4 fails: [test] on [/api] with base [http://localhost:8080/api]
    sends the child's example to [/api/api/users]; the run reports
    [passed] and [failed] only. *)
Lemma child_test_url_counterexample :
  map (fun p => q_path (i_req (snd p))) (g_invs (test 100 users_nodes [] 0 api_base []))
    = ["/api/api/users"] /\
  g_out (run_events (test 100 users_nodes [] 0 api_base [])
                    [EvResponse 0 (incoming 200 "text/plain"); EvData 0 "pong"; EvEnd 0])
    = [(None, [0], [])].
Proof. split; vm_compute; reflexivity. Qed.

(** C5 (as the code stands): the timer does not abort the request, so a
    response arriving after the timeout is handled too; with one
    scheduled example the run calls back twice, the second time with
    three entries (one passed, the same failure twice). *)
Theorem timeout_then_response_reports_twice :
  g_out (run_events (test 100 ping_nodes [] 0 local_base [])
                    [EvTimeout 0; EvResponse 0 (incoming 200 "text/plain"); EvData 0 "pong"; EvEnd 0])
  = [(None, [], [0]); (None, [0], [0; 0])].
Proof. vm_compute. reflexivity. Qed.

(** C8: when request [i] is in the run and not crashed, its [error] event,
    or its timer while armed (which emits [error] with ["timed out"]),
    records the example's summary as failed with the error-shaped actual
    response [{error: msg}], disarms the timer and hands the results to
    the run, which goes on exactly as after any finished test: the next
    test starts, or the run completes with a null error.  With an
    [afterEachTest] that does not fail, the error never reaches the run's
    callback. *)
Theorem request_error_is_failure : forall g i iv msg ev,
  g_crash g = None ->
  lookup Nat.eqb i (g_invs g) = Some iv ->
  (i_after iv = HookUnset \/ i_after iv = HookCalls None) ->
  (ev = EvError i msg \/ (ev = EvTimeout i /\ i_timer iv = true /\ msg = "timed out")) ->
  let iv' := inv_fail i (i_phase iv) (AError msg) iv in
  i_actual iv' = AError msg /\ In i (i_failed iv') /\ i_timer iv' = false /\
  step g ev = run_next (merge (i_passed iv') (i_failed iv') (put_inv i iv' g)) /\
  (g_tests g = [] ->
   g_out (step g ev) =
   (g_out g ++ [(None, g_passed g ++ i_passed iv, g_failed g ++ i_failed iv ++ [i])])%list).
Proof.
  intros g i iv msg ev Hcr Hiv Hafter Hev iv'.
  assert (Hstep : step g ev = run_next (merge (i_passed iv') (i_failed iv') (put_inv i iv' g))).
  { destruct Hev as [->|(-> & Ht & ->)]; unfold step; rewrite Hcr, Hiv; [|rewrite Ht];
      unfold on_error, after_test; fold iv'; simpl i_after;
      destruct Hafter as [Ha|Ha]; rewrite Ha; reflexivity. }
  split; [reflexivity|]. split; [simpl; apply in_or_app; right; now left|].
  split; [reflexivity|]. split; [exact Hstep|].
  intros Hnil. rewrite Hstep. unfold run_next. simpl. rewrite Hnil. simpl.
  now rewrite app_assoc.
Qed.

Lemma request_error_is_failure_witness :
  let g := test 100 ping_nodes [] 0 local_base [] in
  let iv' := inv_fail 0 PWaiting (AError "timed out")
               (match lookup Nat.eqb 0 (g_invs g) with Some iv => iv
                | None => mkInv (mkTest 0 local_base "get" users_handler ping_example)
                                (mkRequest "" "" "" "" [] None) HookUnset [] [] false PWaiting ANone false
                end) in
  i_actual iv' = AError "timed out" /\ In 0 (i_failed iv') /\ i_timer iv' = false /\
  step g (EvTimeout 0) = run_next (merge (i_passed iv') (i_failed iv') (put_inv 0 iv' g)) /\
  (g_tests g = [] ->
   g_out (step g (EvTimeout 0)) =
   (g_out g ++ [(None, g_passed g ++ [], g_failed g ++ [] ++ [0])])%list).
Proof.
  intros g.
  exact (request_error_is_failure g 0 (match lookup Nat.eqb 0 (g_invs g) with Some iv => iv
                | None => mkInv (mkTest 0 local_base "get" users_handler ping_example)
                                (mkRequest "" "" "" "" [] None) HookUnset [] [] false PWaiting ANone false
                end) "timed out" (EvTimeout 0) eq_refl eq_refl (or_introl eq_refl)
           (or_intror (conj eq_refl (conj eq_refl eq_refl)))).
Defined.

(** * Further properties of the resource tree *)

(** ** Paths composed along the parent links *)
Module RouteFacts.

Definition nonempty (x : string) : bool := negb (String.eqb x "").

Definition segs_of (s : string) : list string := filter nonempty (split_slash s).

Definition seg_ok (x : string) : Prop := x = EmptyString \/ clean x = true.

(** Concatenations of normalized paths. *)
Inductive cat_canon : string -> Prop :=
| cc_nil : cat_canon EmptyString
| cc_cons : forall segs tr t, segs <> [] -> Forall (fun x => clean x = true) segs ->
    cat_canon t -> cat_canon (canon segs tr ++ t).

(** The normal form of a concatenation. *)
Definition nf (t : string) : option string :=
  match segs_of t with
  | [] => None
  | segs => Some (canon segs (last_is_slash t))
  end.

Lemma str_app_assoc : forall s1 s2 s3 : string, s1 ++ s2 ++ s3 = (s1 ++ s2) ++ s3.
Proof. induction s1 as [|c s1 IH]; intros; simpl; [reflexivity|now rewrite IH]. Qed.

Lemma norm_step_clean_seg : forall stk x, clean x = true -> norm_step false stk x = x :: stk.
Proof.
  intros stk x H. unfold clean in H.
  apply andb_prop in H as [H H4]. apply andb_prop in H as [H H3]. apply andb_prop in H as [_ H2].
  apply negb_true_iff in H2, H3, H4. unfold norm_step. now rewrite H2, H3, H4.
Qed.

Lemma fold_mixed : forall L stk, Forall seg_ok L ->
  fold_left (norm_step false) L stk = (rev (filter nonempty L) ++ stk)%list.
Proof.
  induction L as [|x L IH]; intros stk HL; [reflexivity|].
  inversion HL as [|? ? Hx HL']; subst. simpl.
  destruct Hx as [-> | Hc].
  - rewrite norm_step_empty. simpl. now apply IH.
  - rewrite norm_step_clean_seg by exact Hc.
    assert (Hne : nonempty x = true)
      by (unfold nonempty; apply negb_true_iff, String.eqb_neq, clean_nonempty, Hc).
    rewrite Hne. simpl. rewrite IH by exact HL'. now rewrite <- app_assoc.
Qed.

Lemma segs_of_clean : forall s, Forall seg_ok (split_slash s) ->
  Forall (fun x => clean x = true) (segs_of s).
Proof.
  intros s H. unfold segs_of. induction H as [|x L Hx HL IH]; [constructor|].
  simpl. destruct Hx as [-> | Hc]; [exact IH|].
  destruct (nonempty x); [constructor; assumption|exact IH].
Qed.

(** [posix_normalize] of an absolute path whose segments are empty or clean. *)
Lemma normalize_abs : forall s, first_is_slash s = true -> Forall seg_ok (split_slash s) ->
  posix_normalize s = canon (segs_of s) (last_is_slash s).
Proof.
  intros s Hfirst Hok.
  assert (Hstk : normalize_stack s false = rev (segs_of s)).
  { unfold normalize_stack. rewrite fold_mixed by exact Hok. now rewrite app_nil_r. }
  assert (Hc := segs_of_clean s Hok).
  unfold posix_normalize.
  destruct (String.eqb s "") eqn:E0; [apply String.eqb_eq in E0; subst; discriminate|].
  rewrite Hfirst. simpl negb. unfold normalizeString. rewrite Hstk, rev_involutive.
  destruct (segs_of s) as [|x rest] eqn:Er; [reflexivity|].
  destruct (join_last (x :: rest) ltac:(discriminate) Hc) as [_ Hj].
  destruct (String.eqb (join_slash (x :: rest)) "") eqn:E1; [apply String.eqb_eq in E1; congruence|].
  unfold canon. destruct (last_is_slash s); [reflexivity|]. simpl. now rewrite append_empty_r.
Qed.

Lemma segs_of_app_slash : forall s1 s2,
  segs_of (s1 ++ String slash s2) = (segs_of s1 ++ segs_of s2)%list.
Proof. intros. unfold segs_of. now rewrite split_slash_app_slash, filter_app. Qed.

Lemma segs_of_slash : forall s, segs_of (String slash s) = segs_of s.
Proof. reflexivity. Qed.

Lemma filter_clean : forall segs, Forall (fun x => clean x = true) segs ->
  filter nonempty segs = segs.
Proof.
  induction segs as [|x rest IH]; intros H; [reflexivity|].
  inversion H; subst. simpl.
  assert (Hne : nonempty x = true)
    by (unfold nonempty; apply negb_true_iff, String.eqb_neq, clean_nonempty; assumption).
  rewrite Hne. now rewrite IH.
Qed.

Lemma segs_of_canon : forall segs tr, segs <> [] -> Forall (fun x => clean x = true) segs ->
  segs_of (canon segs tr) = segs.
Proof.
  intros segs tr Hne Hc. unfold segs_of. rewrite canon_split by assumption.
  simpl. rewrite filter_app, filter_clean by exact Hc.
  destruct tr; simpl; now rewrite app_nil_r.
Qed.

Lemma split_canon_ok : forall segs tr, segs <> [] -> Forall (fun x => clean x = true) segs ->
  Forall seg_ok (split_slash (canon segs tr)).
Proof.
  intros segs tr Hne Hc. rewrite canon_split by assumption.
  constructor; [now left|]. apply Forall_app. split.
  - eapply Forall_impl; [|exact Hc]. intros x Hx. now right.
  - destruct tr; repeat constructor.
Qed.

Lemma canon_slash : forall segs tr, segs <> [] -> exists r, canon segs tr = String slash r.
Proof. intros segs tr Hne. destruct segs; [congruence|]. eexists. reflexivity. Qed.

Lemma cat_canon_shape : forall t, cat_canon t -> t = EmptyString \/ exists r, t = String slash r.
Proof.
  intros t H. destruct H as [|segs tr t Hne Hc Ht]; [now left|].
  right. destruct (canon_slash segs tr Hne) as [r ->]. eexists. reflexivity.
Qed.

Lemma cat_canon_ok : forall t, cat_canon t -> Forall seg_ok (split_slash t).
Proof.
  intros t H. induction H as [|segs tr t Hne Hc Ht IH]; [repeat constructor; now left|].
  destruct (cat_canon_shape t Ht) as [-> | [r ->]].
  - rewrite append_empty_r. now apply split_canon_ok.
  - rewrite split_slash_app_slash. apply Forall_app. split; [now apply split_canon_ok|].
    rewrite split_slash_cons_slash in IH. now inversion IH.
Qed.

Lemma cat_canon_segs : forall t, cat_canon t -> t <> EmptyString -> segs_of t <> [].
Proof.
  intros t H Hne. destruct H as [|segs tr t Hs Hc Ht]; [congruence|].
  destruct (cat_canon_shape t Ht) as [-> | [r ->]].
  - rewrite append_empty_r, segs_of_canon by assumption. exact Hs.
  - rewrite segs_of_app_slash, segs_of_canon by assumption.
    destruct segs; [congruence|discriminate].
Qed.

Lemma last_is_slash_cons : forall c s, s <> EmptyString ->
  last_is_slash (String c s) = last_is_slash s.
Proof. intros c s Hs. destruct s; [congruence|reflexivity]. Qed.

Lemma normalize_root : posix_normalize "/" = "/".
Proof. reflexivity. Qed.

(** [normalizePath (t)] of a concatenation of normalized paths. *)
Lemma normalizePath_cat : forall t, cat_canon t -> normalizePath (Some t) None = nf t.
Proof.
  intros t Ht. unfold normalizePath. rewrite posix_join_root.
  destruct (cat_canon_shape t Ht) as [-> | [r Hr]]; [reflexivity|].
  assert (Htne : t <> EmptyString) by (rewrite Hr; discriminate).
  destruct (String.eqb t "") eqn:E0; [apply String.eqb_eq in E0; congruence|].
  assert (Hok := cat_canon_ok t Ht).
  rewrite (normalize_abs ("/" ++ String slash t)); [| reflexivity |].
  2:{ simpl. constructor; [now left|]. constructor; [now left|]. exact Hok. }
  change (segs_of ("/" ++ String slash t)) with (segs_of t).
  change ("/" ++ String slash t) with (String slash (String slash t)).
  rewrite last_is_slash_cons, last_is_slash_cons by (discriminate || exact Htne).
  assert (Hs := cat_canon_segs t Ht Htne).
  assert (Hc := segs_of_clean t Hok).
  rewrite normalize_canon, canon_not_root by assumption.
  unfold nf. destruct (segs_of t); [congruence|reflexivity].
Qed.

Lemma nf_canon : forall segs tr, segs <> [] -> Forall (fun x => clean x = true) segs ->
  nf (canon segs tr) = Some (canon segs tr).
Proof.
  intros segs tr Hne Hc. unfold nf. rewrite segs_of_canon by assumption.
  rewrite canon_last by assumption. destruct segs; [congruence|reflexivity].
Qed.

(** The step of [exportHandler]: [normalizePath (path, this.path)]. *)
Lemma normalizePath_step : forall t y, cat_canon t -> y = normalizePath y None ->
  normalizePath (nf t) y = nf (pstr y ++ t) /\ cat_canon (pstr y ++ t).
Proof.
  intros t y Ht Hy.
  destruct (normalizePath_shape y) as [Hn | (sb & trb & Hsb & Hcb & Hn)]; rewrite Hn in Hy; subst y.
  - split; [|exact Ht]. simpl.
    unfold nf. destruct (segs_of t) as [|x rest] eqn:E; [reflexivity|].
    rewrite <- E. apply normalizePath_canon; [rewrite E; discriminate|].
    apply segs_of_clean, cat_canon_ok, Ht.
  - split; [|now constructor]. simpl.
    assert (Hbne : String.eqb (canon sb trb) "" = false).
    { destruct (canon_slash sb trb Hsb) as [r ->]. reflexivity. }
    assert (Hok := cat_canon_ok t Ht).
    unfold normalizePath. rewrite Hbne.
    destruct (cat_canon_shape t Ht) as [-> | [r Hr]].
    + change (nf "") with (@None string). rewrite append_empty_r.
      unfold posix_join. simpl. rewrite Hbne. simpl.
      rewrite !normalize_canon, canon_not_root by assumption.
      now rewrite nf_canon.
    + assert (Htne : t <> EmptyString) by (rewrite Hr; discriminate).
      assert (Hs := cat_canon_segs t Ht Htne).
      assert (Hct := segs_of_clean t Hok).
      assert (Hnf : nf t = Some (canon (segs_of t) (last_is_slash t)))
        by (unfold nf; destruct (segs_of t); [congruence|reflexivity]).
      rewrite Hnf. simpl pstr.
      assert (Hcne : String.eqb (canon (segs_of t) (last_is_slash t)) "" = false).
      { destruct (canon_slash (segs_of t) (last_is_slash t) Hs) as [r' ->]. reflexivity. }
      unfold posix_join. simpl. rewrite Hbne, Hcne. simpl.
      destruct (canon_slash (segs_of t) (last_is_slash t) Hs) as [r' Hr'].
      assert (Hall : Forall seg_ok (split_slash (canon sb trb ++ String slash (canon (segs_of t) (last_is_slash t))))).
      { rewrite split_slash_app_slash. apply Forall_app. split; now apply split_canon_ok. }
      assert (Hf : first_is_slash (canon sb trb ++ String slash (canon (segs_of t) (last_is_slash t))) = true)
        by (destruct (canon_slash sb trb Hsb) as [r0 ->]; reflexivity).
      rewrite (normalize_abs _ Hf Hall).
      rewrite segs_of_app_slash, !segs_of_canon by assumption.
      rewrite last_is_slash_app, last_is_slash_cons, canon_last by (assumption || discriminate
        || (rewrite Hr'; discriminate)).
      assert (Hne2 : (sb ++ segs_of t)%list <> []) by (destruct sb; [congruence|discriminate]).
      assert (Hc2 : Forall (fun x => clean x = true) (sb ++ segs_of t)) by (apply Forall_app; now split).
      rewrite normalize_canon, canon_not_root by assumption.
      assert (Hsegs : segs_of (canon sb trb ++ t) = (sb ++ segs_of t)%list)
        by (rewrite Hr, segs_of_app_slash, segs_of_canon, segs_of_slash by assumption; reflexivity).
      assert (Hlast : last_is_slash (canon sb trb ++ t) = last_is_slash t)
        by (apply last_is_slash_app; exact Htne).
      unfold nf. rewrite Hsegs, Hlast. destruct (sb ++ segs_of t)%list; [congruence|reflexivity].
Qed.

End RouteFacts.

Import RouteFacts.

Lemma cat_canon_app : forall s1 s2, cat_canon s1 -> cat_canon s2 -> cat_canon (s1 ++ s2).
Proof.
  intros s1 s2 H1 H2. induction H1 as [|segs tr t Hne Hc Ht IH]; [exact H2|].
  rewrite <- str_app_assoc. now constructor.
Qed.

Lemma route_cat : forall N n d s e, export_route N n d s e ->
  (forall i a, lookup Nat.eqb i N = Some a -> a_path a = normalizePath (a_path a) None) ->
  cat_canon s.
Proof.
  intros N n d s e Hr Hp. induction Hr as [n a Ha _|n a p d s e Ha _ _ IH].
  - rewrite <- (append_empty_r (pstr (a_path a))).
    exact (proj2 (normalizePath_step "" (a_path a) cc_nil (Hp n a Ha))).
  - apply cat_canon_app; [exact IH|].
    rewrite <- (append_empty_r (pstr (a_path a))).
    exact (proj2 (normalizePath_step "" (a_path a) cc_nil (Hp n a Ha))).
Qed.

Lemma exportHandler_route_acc : forall N n d s e, export_route N n d s e ->
  (forall i a, lookup Nat.eqb i N = Some a -> a_path a = normalizePath (a_path a) None) ->
  forall fuel t m h st, d < fuel -> st_nodes st = N -> cat_canon t ->
  exportHandler fuel n m (nf t) h st =
  match e with
  | PSink _ app => host_export app m (nf (s ++ t)) h st
  | _ => Ok (tt, st)
  end.
Proof.
  intros N n d s e Hr Hp. induction Hr as [n a Ha Hnp|n a p d s e Ha Hap Hr IH];
    intros fuel t m h st Hd Hst Ht; (destruct fuel as [|f]; [lia|]); simpl;
    unfold bind, get_node; rewrite Hst, Ha.
  - destruct (normalizePath_step t (a_path a) Ht (Hp n a Ha)) as [Hstep _].
    destruct (a_parent a) as [|q|w app] eqn:E; [reflexivity|now destruct (Hnp q)|].
    now rewrite Hstep.
  - rewrite Hap.
    destruct (normalizePath_step t (a_path a) Ht (Hp n a Ha)) as [Hstep Hcat].
    rewrite Hstep, (IH f _ m h st) by (lia || assumption).
    now rewrite str_app_assoc.
Qed.

(** X2: [exportHandler] of a handler registered on node [n] (its [path]
    argument [null]) walks the [parent] links: when they end at a server
    app, the app receives the route whose path is the normalization of the
    concatenated paths of the nodes met, the top-most first; when they end
    at no parent, nothing is exported and the state is unchanged.  This
    holds when every node's path is a normalized one, as [set path]
    stores it, and the fuel covers the depth of the walk. *)
Theorem exportHandler_full_path : forall N n d s e fuel m h st,
  export_route N n d s e ->
  (forall i a, lookup Nat.eqb i N = Some a -> a_path a = normalizePath (a_path a) None) ->
  d < fuel -> st_nodes st = N ->
  exportHandler fuel n m None h st =
  match e with
  | PSink _ app => host_export app m (normalizePath (Some s) None) h st
  | _ => Ok (tt, st)
  end.
Proof.
  intros N n d s e fuel m h st Hr Hp Hd Hst.
  change None with (nf ""). rewrite (exportHandler_route_acc N n d s e Hr Hp fuel "" m h st Hd Hst cc_nil).
  rewrite append_empty_r, normalizePath_cat by exact (route_cat N n d s e Hr Hp).
  reflexivity.
Qed.

Lemma exportHandler_full_path_witness :
  export_route mounted_nodes 2 2 (("/api" ++ "/users/") ++ "/:id") (PSink 6 5) /\
  exportHandler 5 2 "get" None users_handler mounted_state =
  host_export 5 "get" (Some "/api/users/:id") users_handler mounted_state.
Proof.
  assert (Hr : export_route mounted_nodes 2 2 (("/api" ++ "/users/") ++ "/:id") (PSink 6 5)).
  { apply (route_up mounted_nodes 2 (mkAPI (Some "/:id") HookUnset HookUnset (PNode 1) []
             [("get", users_handler)]) 1 1
             ("/api" ++ "/users/")); [reflexivity|reflexivity|].
    apply (route_up mounted_nodes 1 (mkAPI (Some "/users/") HookUnset HookUnset (PNode 0)
             [("/:id", 2)] []) 0 0 "/api"); [reflexivity|reflexivity|].
    apply (route_top mounted_nodes 0 (mkAPI (Some "/api") HookUnset HookUnset (PSink 6 5)
             [("/users/", 1)] [])); [reflexivity|discriminate]. }
  split; [exact Hr|].
  rewrite (exportHandler_full_path mounted_nodes 2 2 _ (PSink 6 5) 5 "get" users_handler
             mounted_state Hr); [reflexivity| |lia|reflexivity].
  intros i a Ha. destruct i as [|[|[|i]]]; simpl in Ha; inversion Ha; reflexivity.
Defined.

(** ** Adding handlers *)

Lemma lookup_app_one : forall (N : list (nat * api)) k v i,
  lookup Nat.eqb i (N ++ [(k, v)]) =
  match lookup Nat.eqb i N with Some x => Some x | None => if Nat.eqb i k then Some v else None end.
Proof.
  induction N as [|[k' v'] rest IH]; intros k v i; simpl; [now destruct (Nat.eqb i k)|].
  destruct (Nat.eqb i k'); [reflexivity|apply IH].
Qed.

Lemma lift_ok : forall r st st', lift r st = Ok (tt, st') ->
  st_nodes st' = st_nodes st /\ st_objs st' = st_objs st /\ st_next st' = st_next st /\
  exists l, st_log st' = (st_log st ++ l)%list.
Proof.
  intros [l|e] st st' H; [|discriminate]. injection H as <-.
  repeat split; [reflexivity..|]. now exists l.
Qed.

Lemma selfapi_child_ok : forall f n p st c st' pa,
  lookup Nat.eqb (st_next st) (st_nodes st) = None ->
  lookup Nat.eqb n (st_nodes st) = Some pa ->
  p <> "" ->
  selfapi_child f n p st = Ok (c, st') ->
  c = st_next st /\ st_next st' = S (st_next st) /\
  forall i, lookup Nat.eqb i (st_nodes st') =
    if Nat.eqb i c then Some (mkAPI (normalizePath (Some p) None) HookUnset HookUnset (PNode n) [] [])
    else if Nat.eqb i n
    then Some (set_a_children pa (assoc_set String.eqb (child_key (normalizePath (Some p) None)) c
                                            (a_children pa)))
    else lookup Nat.eqb i (st_nodes st).
Proof.
  intros f n p st c st' pa Hfr Hn Hp H.
  assert (Hnc : Nat.eqb n (st_next st) = false).
  { apply Nat.eqb_neq. intros ->. congruence. }
  destruct (String.eqb p "") eqn:Ep; [apply String.eqb_eq in Ep; congruence|].
  unfold selfapi_child, alloc_node, bind, get_node, put_node, ret in H.
  cbn [st_nodes st_next st_objs st_log] in H.
  rewrite Ep in H. change (negb false) with true in H. cbv beta iota in H.
  cbn [st_nodes st_next st_objs st_log] in H.
  rewrite lookup_app_one, Hfr, Nat.eqb_refl in H. cbv beta iota in H.
  cbn [st_nodes st_next st_objs st_log] in H.
  unfold set_parent, bind, get_node, put_node, ret in H.
  cbn [st_nodes st_next st_objs st_log] in H.
  rewrite lookup_set_node, Nat.eqb_refl in H. cbv beta iota in H.
  cbn [same_parent a_parent set_a_path new_api] in H. cbv beta iota in H.
  cbn [st_nodes st_next st_objs st_log] in H.
  rewrite lookup_set_node, Hnc, lookup_app_one, Hn in H. cbv beta iota in H.
  cbn [st_nodes st_next st_objs st_log] in H.
  rewrite lookup_set_node, Nat.eqb_sym, Hnc, lookup_set_node, Nat.eqb_refl in H. cbv beta iota in H.
  destruct (exportAllHandlers f (st_next st) _) as [[[] st2]|e] eqn:Eex in H; [|discriminate].
  injection H as <- <-.
  rewrite exportAll_spec in Eex. apply lift_ok in Eex as (Hn2 & _ & Hx2 & _).
  cbn [st_nodes st_next st_objs st_log] in Hn2, Hx2.
  split; [reflexivity|]. split; [exact Hx2|].
  intros i. rewrite Hn2, !lookup_set_node.
  destruct (Nat.eqb i (st_next st)) eqn:Ei; [reflexivity|].
  destruct (Nat.eqb i n); [reflexivity|].
  rewrite lookup_app_one, Ei. now destruct (lookup Nat.eqb i (st_nodes st)).
Qed.

Lemma add_own_handler_ok : forall f n m h st st',
  add_own_handler f n m h st = Ok (tt, st') ->
  exists a, lookup Nat.eqb n (st_nodes st) = Some a /\ st_next st' = st_next st /\
  forall i, lookup Nat.eqb i (st_nodes st') =
    if Nat.eqb i n then Some (set_a_handlers a (assoc_set String.eqb m h (a_handlers a)))
    else lookup Nat.eqb i (st_nodes st).
Proof.
  intros f n m h st st' H.
  unfold add_own_handler, bind, get_node, put_node in H.
  destruct (lookup Nat.eqb n (st_nodes st)) as [a|] eqn:Ea; [|discriminate].
  rewrite exportHandler_spec in H. apply lift_ok in H as (Hn2 & _ & Hx2 & _).
  cbn [st_nodes st_next] in Hn2, Hx2.
  exists a. split; [reflexivity|]. split; [exact Hx2|].
  intros i. now rewrite Hn2, lookup_set_node.
Qed.

Lemma normalizePath_fix : forall p,
  normalizePath (normalizePath p None) None = normalizePath p None.
Proof.
  intros p. destruct (normalizePath_shape p) as [-> | (segs & tr & Hne & Hc & ->)].
  - reflexivity.
  - now apply normalizePath_canon.
Qed.

Lemma normalizePath_nonempty : forall p q, normalizePath p None = Some q -> q <> "".
Proof.
  intros p q H. destruct (normalizePath_shape p) as [Hn | (segs & tr & Hne & Hc & Hn)];
    rewrite Hn in H; [discriminate|]. injection H as <-.
  destruct (canon_slash segs tr Hne) as [r ->]. discriminate.
Qed.

Lemma addHandler_ok : forall f n m path h st st',
  lookup Nat.eqb (st_next st) (st_nodes st) = None ->
  addHandler f n m path h st = Ok (tt, st') ->
  exists a, lookup Nat.eqb n (st_nodes st) = Some a /\
  match normalizePath path None with
  | None =>
      st_next st' = st_next st /\
      forall i, lookup Nat.eqb i (st_nodes st') =
        if Nat.eqb i n then Some (set_a_handlers a (assoc_set String.eqb m h (a_handlers a)))
        else lookup Nat.eqb i (st_nodes st)
  | Some p =>
      (exists c b, lookup String.eqb p (a_children a) = Some c /\
         lookup Nat.eqb c (st_nodes st) = Some b /\ st_next st' = st_next st /\
         forall i, lookup Nat.eqb i (st_nodes st') =
           if Nat.eqb i c then Some (set_a_handlers b (assoc_set String.eqb m h (a_handlers b)))
           else lookup Nat.eqb i (st_nodes st))
      \/
      (lookup String.eqb p (a_children a) = None /\ st_next st' = S (st_next st) /\
       forall i, lookup Nat.eqb i (st_nodes st') =
         if Nat.eqb i (st_next st)
         then Some (mkAPI (Some p) HookUnset HookUnset (PNode n) [] [(m, h)])
         else if Nat.eqb i n
         then Some (set_a_children a (assoc_set String.eqb p (st_next st) (a_children a)))
         else lookup Nat.eqb i (st_nodes st))
  end.
Proof.
  intros f n m path h st st' Hfr H. unfold addHandler in H.
  destruct (normalizePath path None) as [p|] eqn:Ep.
  - unfold bind at 1, get_node at 1 in H.
    destruct (lookup Nat.eqb n (st_nodes st)) as [a|] eqn:Ea; [|discriminate].
    exists a. split; [reflexivity|].
    destruct (lookup String.eqb p (a_children a)) as [c|] eqn:Ec.
    + left. apply add_own_handler_ok in H as (b & Hb & Hx & Hl).
      exists c, b. now repeat split.
    + right. split; [reflexivity|]. unfold bind in H.
      destruct (selfapi_child f n p st) as [[c st1]|e] eqn:Es; [|discriminate].
      assert (Hp := normalizePath_nonempty _ _ Ep).
      destruct (selfapi_child_ok f n p st c st1 a Hfr Ea Hp Es) as (-> & Hx1 & Hl1).
      apply add_own_handler_ok in H as (b & Hb & Hx & Hl).
      assert (Hpp : normalizePath (Some p) None = Some p)
        by (rewrite <- Ep; apply normalizePath_fix).
      rewrite Hl1, Nat.eqb_refl, Hpp in Hb. injection Hb as <-.
      split; [now rewrite Hx, Hx1|].
      intros i. rewrite Hl, Hl1, Hpp.
      destruct (Nat.eqb i (st_next st)); reflexivity.
  - apply add_own_handler_ok in H as (a & Ha & Hx & Hl).
    exists a. now repeat split.
Qed.

(** X4: [addHandler (method, path, parameters)] followed by a lookup: when
    it returns normally (on a heap whose next fresh id is unused), a path
    that normalizes to the root leaves [parameters] under [method] in the
    node's own [handlers], with its other handlers and its [children]
    unchanged; any other path leaves, under the normalized path in the
    node's [children], a child whose [handlers] map [method] to
    [parameters], while the child's other handlers, the node's other
    children and the node's other handlers are unchanged. *)
Theorem addHandler_then_lookup : forall f n m path h st st',
  lookup Nat.eqb (st_next st) (st_nodes st) = None ->
  addHandler f n m path h st = Ok (tt, st') ->
  match normalizePath path None with
  | None =>
      lookup String.eqb m (handlers_of (st_nodes st') n) = Some h /\
      (forall m', m' <> m ->
         lookup String.eqb m' (handlers_of (st_nodes st') n) =
         lookup String.eqb m' (handlers_of (st_nodes st) n)) /\
      children_of (st_nodes st') n = children_of (st_nodes st) n
  | Some p =>
      exists c, lookup String.eqb p (children_of (st_nodes st') n) = Some c /\
        lookup String.eqb m (handlers_of (st_nodes st') c) = Some h /\
        (forall m', m' <> m ->
           lookup String.eqb m' (handlers_of (st_nodes st') c) =
           lookup String.eqb m' (handlers_of (st_nodes st) c)) /\
        (forall p', p' <> p ->
           lookup String.eqb p' (children_of (st_nodes st') n) =
           lookup String.eqb p' (children_of (st_nodes st) n)) /\
        (forall m', m' <> m ->
           lookup String.eqb m' (handlers_of (st_nodes st') n) =
           lookup String.eqb m' (handlers_of (st_nodes st) n))
  end.
Proof.
  intros f n m path h st st' Hfr H.
  destruct (addHandler_ok f n m path h st st' Hfr H) as (a & Ha & Hres).
  assert (Hm : forall m' (l : list (string * hspec)), m' <> m ->
            lookup String.eqb m' (assoc_set String.eqb m h l) = lookup String.eqb m' l).
  { intros m' l Hne. rewrite (lookup_assoc_set String.eqb String.eqb_eq).
    apply String.eqb_neq in Hne. now rewrite Hne. }
  assert (Hmm : forall (l : list (string * hspec)),
            lookup String.eqb m (assoc_set String.eqb m h l) = Some h).
  { intros l. rewrite (lookup_assoc_set String.eqb String.eqb_eq). now rewrite String.eqb_refl. }
  unfold handlers_of, children_of.
  destruct (normalizePath path None) as [p|].
  - destruct Hres as [(c & b & Hc & Hb & _ & Hl) | (Hc & _ & Hl)].
    + exists c. rewrite !Hl, Nat.eqb_refl.
      destruct (Nat.eqb n c) eqn:E.
      * apply Nat.eqb_eq in E. subst c. rewrite Ha in Hb. injection Hb as <-. rewrite Ha.
        cbn [a_handlers a_children set_a_handlers].
        split; [exact Hc|]. split; [apply Hmm|]. split; [intros m' Hne; now apply Hm|].
        split; [reflexivity|]. intros m' Hne. now apply Hm.
      * rewrite Ha, Hb. cbn [a_handlers a_children set_a_handlers].
        split; [exact Hc|]. split; [apply Hmm|]. split; [intros m' Hne; now apply Hm|].
        split; reflexivity.
    + exists (st_next st).
      assert (Hn : Nat.eqb n (st_next st) = false)
        by (apply Nat.eqb_neq; intros ->; congruence).
      rewrite !Hl, Hn, !Nat.eqb_refl, Ha, Hfr. cbn [a_children a_handlers set_a_children].
      split; [rewrite (lookup_assoc_set String.eqb String.eqb_eq), String.eqb_refl; reflexivity|].
      split; [simpl; now rewrite String.eqb_refl|].
      split; [intros m' Hne; apply String.eqb_neq in Hne; simpl; now rewrite Hne|].
      split; [|reflexivity].
      intros p' Hne. rewrite (lookup_assoc_set String.eqb String.eqb_eq).
      apply String.eqb_neq in Hne. now rewrite Hne.
  - destruct Hres as (_ & Hl). rewrite Hl, Nat.eqb_refl, Ha.
    cbn [a_handlers a_children set_a_handlers].
    split; [apply Hmm|]. split; [intros m' Hne; now apply Hm|reflexivity].
Qed.

(** X5: [addHandler] with a path whose normalized form is already a key of the
    node's [children] creates no node: the next fresh id and the node's
    [children] are unchanged, that existing child now maps [method] to
    [parameters], and no other node of the heap changes. *)
Theorem addHandler_reuses_child : forall f n m path h st st' p c,
  normalizePath path None = Some p ->
  lookup String.eqb p (children_of (st_nodes st) n) = Some c ->
  addHandler f n m path h st = Ok (tt, st') ->
  st_next st' = st_next st /\
  children_of (st_nodes st') n = children_of (st_nodes st) n /\
  lookup String.eqb m (handlers_of (st_nodes st') c) = Some h /\
  (forall i, i <> c -> lookup Nat.eqb i (st_nodes st') = lookup Nat.eqb i (st_nodes st)).
Proof.
  intros f n m path h st st' p c Ep Hc H.
  unfold addHandler in H. rewrite Ep in H. unfold bind at 1, get_node at 1 in H.
  unfold children_of in Hc.
  destruct (lookup Nat.eqb n (st_nodes st)) as [a|] eqn:Ea; [|discriminate].
  rewrite Hc in H. apply add_own_handler_ok in H as (b & Hb & Hx & Hl).
  split; [exact Hx|]. split.
  - unfold children_of. rewrite Hl, Ea. destruct (Nat.eqb n c) eqn:E; [|reflexivity].
    apply Nat.eqb_eq in E. subst c. rewrite Ea in Hb. now injection Hb as <-.
  - split.
    + unfold handlers_of. rewrite Hl, Nat.eqb_refl. cbn [a_handlers set_a_handlers].
      rewrite (lookup_assoc_set String.eqb String.eqb_eq). now rewrite String.eqb_refl.
    + intros i Hi. rewrite Hl. apply Nat.eqb_neq in Hi. now rewrite Hi.
Qed.

(** X6: [addHandler] keeps every stored [path] normalized: if every node's
    path is a fixed point of [normalizePath (path)] before the call (as
    [set path] leaves it), the same holds for every node after the call,
    including a child it creates. *)
Theorem addHandler_keeps_paths_normalized : forall f n m path h st st',
  lookup Nat.eqb (st_next st) (st_nodes st) = None ->
  (forall i a, lookup Nat.eqb i (st_nodes st) = Some a -> a_path a = normalizePath (a_path a) None) ->
  addHandler f n m path h st = Ok (tt, st') ->
  forall i a, lookup Nat.eqb i (st_nodes st') = Some a -> a_path a = normalizePath (a_path a) None.
Proof.
  intros f n m path h st st' Hfr Hinv H.
  destruct (addHandler_ok f n m path h st st' Hfr H) as (a0 & Ha0 & Hres).
  destruct (normalizePath path None) as [p|] eqn:Ep.
  - destruct Hres as [(c & b & Hc & Hb & _ & Hl) | (Hc & _ & Hl)]; intros i a Ha; rewrite Hl in Ha.
    + destruct (Nat.eqb i c); [injection Ha as <-; exact (Hinv c b Hb)|exact (Hinv i a Ha)].
    + destruct (Nat.eqb i (st_next st)); [injection Ha as <-; simpl|].
      * rewrite <- Ep. symmetry. apply normalizePath_fix.
      * destruct (Nat.eqb i n); [injection Ha as <-; exact (Hinv n a0 Ha0)|exact (Hinv i a Ha)].
  - destruct Hres as (_ & Hl). intros i a Ha. rewrite Hl in Ha.
    destruct (Nat.eqb i n); [injection Ha as <-; exact (Hinv n a0 Ha0)|exact (Hinv i a Ha)].
Qed.

(** X3: [exportAllHandlers] never changes the resource tree: when it returns
    normally, the nodes, the other objects and the fresh-id counter are
    unchanged, and the registrations made with the server app are only
    appended after the earlier ones. *)
Theorem exportAllHandlers_only_logs : forall f n st st',
  exportAllHandlers f n st = Ok (tt, st') ->
  st_nodes st' = st_nodes st /\ st_objs st' = st_objs st /\ st_next st' = st_next st /\
  exists l, st_log st' = (st_log st ++ l)%list.
Proof. intros f n st st' H. rewrite exportAll_spec in H. exact (lift_ok _ _ _ H). Qed.

Lemma addHandler_then_lookup_witness :
  match addHandler 10 0 "post" (Some "users") users_handler mounted_state with
  | Ok (_, st') =>
      exists c, lookup String.eqb "/users" (children_of (st_nodes st') 0) = Some c /\
        lookup String.eqb "post" (handlers_of (st_nodes st') c) = Some users_handler /\
        (forall m', m' <> "post" ->
           lookup String.eqb m' (handlers_of (st_nodes st') c) =
           lookup String.eqb m' (handlers_of (st_nodes mounted_state) c)) /\
        (forall p', p' <> "/users" ->
           lookup String.eqb p' (children_of (st_nodes st') 0) =
           lookup String.eqb p' (children_of (st_nodes mounted_state) 0)) /\
        (forall m', m' <> "post" ->
           lookup String.eqb m' (handlers_of (st_nodes st') 0) =
           lookup String.eqb m' (handlers_of (st_nodes mounted_state) 0))
  | Throw _ => False
  end.
Proof.
  destruct (addHandler 10 0 "post" (Some "users") users_handler mounted_state) as [[[] st']|e] eqn:E.
  - exact (addHandler_then_lookup 10 0 "post" (Some "users") users_handler mounted_state st'
             eq_refl E).
  - vm_compute in E. discriminate.
Defined.

Lemma addHandler_reuses_child_witness :
  match addHandler 10 0 "post" (Some "users/") users_handler mounted_state with
  | Ok (_, st') =>
      st_next st' = 7 /\ children_of (st_nodes st') 0 = children_of mounted_nodes 0 /\
      lookup String.eqb "post" (handlers_of (st_nodes st') 1) = Some users_handler /\
      (forall i, i <> 1 -> lookup Nat.eqb i (st_nodes st') = lookup Nat.eqb i mounted_nodes)
  | Throw _ => False
  end.
Proof.
  destruct (addHandler 10 0 "post" (Some "users/") users_handler mounted_state) as [[[] st']|e] eqn:E.
  - exact (addHandler_reuses_child 10 0 "post" (Some "users/") users_handler mounted_state st'
             "/users/" 1 eq_refl eq_refl E).
  - vm_compute in E. discriminate.
Defined.

Lemma addHandler_keeps_paths_normalized_witness :
  match addHandler 10 2 "put" (Some "./photo/../avatar/") users_handler mounted_state with
  | Ok (_, st') => forall i a, lookup Nat.eqb i (st_nodes st') = Some a ->
                               a_path a = normalizePath (a_path a) None
  | Throw _ => False
  end.
Proof.
  destruct (addHandler 10 2 "put" (Some "./photo/../avatar/") users_handler mounted_state)
    as [[[] st']|e] eqn:E.
  - apply (addHandler_keeps_paths_normalized 10 2 "put" (Some "./photo/../avatar/") users_handler
             mounted_state st' eq_refl); [|exact E].
    intros i a Ha. destruct i as [|[|[|i]]]; simpl in Ha; inversion Ha; reflexivity.
  - vm_compute in E. discriminate.
Defined.

Lemma exportAllHandlers_only_logs_witness :
  match exportAllHandlers 10 0 mounted_state with
  | Ok (_, st') =>
      st_nodes st' = mounted_nodes /\ st_objs st' = [(5, fake_server)] /\ st_next st' = 7 /\
      exists l, st_log st' = ([] ++ l)%list
  | Throw _ => False
  end.
Proof.
  destruct (exportAllHandlers 10 0 mounted_state) as [[[] st']|e] eqn:E.
  - exact (exportAllHandlers_only_logs 10 0 mounted_state st' E).
  - vm_compute in E. discriminate.
Defined.

(** X1: The path stored by [set path (path)], [normalizePath (path)], is
    [null] (for the root: the empty string, ["/"], [".."], ...) or an
    absolute path made of one or more segments, none of them empty, ["."]
    or [".."] nor containing a ["/"], optionally followed by one trailing
    ["/"]; it is never ["/"] nor the empty string. *)
Theorem set_path_normalized : forall p : option string,
  normalizePath p None = None \/
  exists segs tr, segs <> [] /\ Forall (fun x => clean x = true) segs /\
    normalizePath p None = Some (canon segs tr).
Proof. exact normalizePath_shape. Qed.

(** ** Scheduling the tests *)

Lemma concat_res_out : forall {A B} (g : A -> res (list B)) l L y,
  concat_res g l = Ok L -> In y L -> exists x l', In x l /\ g x = Ok l' /\ In y l'.
Proof.
  intros A B g l. induction l as [|x rest IH]; intros L y Hok Hin.
  - simpl in Hok. injection Hok as <-. destruct Hin.
  - simpl in Hok. destruct (g x) as [l1|] eqn:Hx; [|discriminate].
    destruct (concat_res g rest) as [l2|] eqn:Hr; [|discriminate].
    injection Hok as <-. apply in_app_or in Hin as [Hin|Hin].
    + exists x, l1. split; [now left|]. now split.
    + destruct (IH l2 y eq_refl Hin) as (x' & l' & Hx' & Hg & Hy).
      exists x', l'. split; [now right|]. now split.
Qed.

Lemma own_tests_out : forall n base hs l t, own_tests n base hs = Ok l -> In t l ->
  t_node t = n /\ t_base t = base /\ In (t_method t, t_handler t) hs /\
  exists exs, hs_examples (t_handler t) = Some exs /\ In (t_example t) exs.
Proof.
  intros n base hs l t Hok Hin. unfold own_tests in Hok.
  destruct (concat_res_out _ _ _ _ Hok Hin) as ([m h] & l' & Hmh & Hg & Ht).
  simpl in Hg. destruct (hs_examples h) as [exs|] eqn:He; [|discriminate].
  injection Hg as <-. apply in_map_iff in Ht as (ex & <- & Hex).
  simpl. repeat split; [exact Hmh|]. exists exs. now split.
Qed.

Lemma own_tests_examples : forall n base hs l m h, own_tests n base hs = Ok l -> In (m, h) hs ->
  exists exs, hs_examples h = Some exs.
Proof.
  intros n base hs l m h Hok Hin. unfold own_tests in Hok.
  destruct (concat_res_in _ _ _ _ Hok Hin) as (l' & Hg & _).
  simpl in Hg. destruct (hs_examples h) as [exs|]; [now exists exs|discriminate].
Qed.

Lemma exportAllTests_sound_gen : forall fuel N n base ts t,
  exportAllTests fuel N n base = Ok ts -> In t ts ->
  child_reach N n (t_node t) /\
  exists a exs, lookup Nat.eqb (t_node t) N = Some a /\ In (t_method t, t_handler t) (a_handlers a) /\
    hs_examples (t_handler t) = Some exs /\ In (t_example t) exs.
Proof.
  induction fuel as [|f IH]; intros N n base ts t Hok Hin; [discriminate|].
  rewrite exportAllTests_S in Hok.
  destruct (lookup Nat.eqb n N) as [a|] eqn:Ha; [|discriminate].
  destruct (own_tests n base (a_handlers a)) as [own|] eqn:Hown; [|discriminate].
  assert (Hmine : In t own -> child_reach N n (t_node t) /\
    exists a exs, lookup Nat.eqb (t_node t) N = Some a /\ In (t_method t, t_handler t) (a_handlers a) /\
      hs_examples (t_handler t) = Some exs /\ In (t_example t) exs).
  { intros Hin'. destruct (own_tests_out _ _ _ _ _ Hown Hin') as (Hn & _ & Hmh & exs & He & Hex).
    rewrite Hn. split; [constructor|]. exists a, exs. now repeat split. }
  destruct (a_children a) as [|kc kids] eqn:Hk; [injection Hok as <-; now apply Hmine|].
  destruct (concat_res _ (kc :: kids)) as [l|] eqn:Hl; [|discriminate].
  injection Hok as <-. apply in_app_or in Hin as [Hin|Hin]; [now apply Hmine|].
  destruct (concat_res_out _ _ _ _ Hl Hin) as ([k c] & l' & Hkc & Hg & Ht).
  destruct (IH N c _ l' t Hg Ht) as [Hr Hrest]. split; [|exact Hrest].
  apply (reach_child N n k c); [|exact Hr]. unfold children_of. now rewrite Ha, Hk.
Qed.

Lemma exportAllTests_complete_gen : forall N n m, child_reach N n m ->
  forall fuel base ts a k h, exportAllTests fuel N n base = Ok ts ->
  lookup Nat.eqb m N = Some a -> In (k, h) (a_handlers a) ->
  exists exs, hs_examples h = Some exs /\
    forall ex, In ex exs -> exists t, In t ts /\ t_node t = m /\ t_method t = k /\
                                      t_handler t = h /\ t_example t = ex.
Proof.
  intros N n m Hr. induction Hr as [n|n k' c m Hkc Hr IH];
    intros fuel base ts a k h Hok Ha Hkh; (destruct fuel as [|f]; [discriminate|]);
    rewrite exportAllTests_S in Hok.
  - rewrite Ha in Hok.
    destruct (own_tests n base (a_handlers a)) as [own|] eqn:Hown; [|discriminate].
    destruct (own_tests_examples _ _ _ _ _ _ Hown Hkh) as [exs He].
    exists exs. split; [exact He|]. intros ex Hex.
    exists (mkTest n base k h ex). split; [|now repeat split].
    assert (Hin := own_tests_in _ _ _ _ _ _ _ _ Hown Hkh He Hex).
    destruct (a_children a); [injection Hok as <-; exact Hin|].
    destruct (concat_res _ _); [|discriminate]. injection Hok as <-. apply in_or_app. now left.
  - unfold children_of in Hkc.
    destruct (lookup Nat.eqb n N) as [an|] eqn:Han; [|destruct Hkc].
    destruct (own_tests n base (a_handlers an)) as [own|]; [|discriminate].
    destruct (a_children an) as [|kc kids] eqn:Hk; [destruct Hkc|].
    destruct (concat_res _ (kc :: kids)) as [l|] eqn:Hl; [|discriminate].
    injection Hok as <-.
    destruct (concat_res_in _ _ _ _ Hl Hkc) as (l' & Hg & Hincl).
    destruct (IH f _ l' a k h Hg Ha Hkh) as (exs & He & Hall).
    exists exs. split; [exact He|]. intros ex Hex.
    destruct (Hall ex Hex) as (t & Ht & Hrest). exists t. split; [|exact Hrest].
    apply in_or_app. right. now apply Hincl.
Qed.

(** X7: Every test scheduled by [exportAllTests] on node [n] (when it returns
    its list) belongs to a node reached from [n] through [children], and
    is one example of one of that node's own [handlers]. *)
Theorem exportAllTests_sound : forall fuel N n base ts t,
  exportAllTests fuel N n base = Ok ts -> In t ts ->
  child_reach N n (t_node t) /\
  exists a exs, lookup Nat.eqb (t_node t) N = Some a /\ In (t_method t, t_handler t) (a_handlers a) /\
    hs_examples (t_handler t) = Some exs /\ In (t_example t) exs.
Proof. exact exportAllTests_sound_gen. Qed.

(** X8: Conversely, when [exportAllTests] on node [n] returns its list, every
    handler of every node reached from [n] through [children] has its
    [examples], and each of them is scheduled as a test of that node,
    method and handler. *)
Theorem exportAllTests_complete : forall fuel N n m base ts a k h,
  child_reach N n m -> exportAllTests fuel N n base = Ok ts ->
  lookup Nat.eqb m N = Some a -> In (k, h) (a_handlers a) ->
  exists exs, hs_examples h = Some exs /\
    forall ex, In ex exs -> exists t, In t ts /\ t_node t = m /\ t_method t = k /\
                                      t_handler t = h /\ t_example t = ex.
Proof.
  intros fuel N n m base ts a k h Hr. exact (exportAllTests_complete_gen N n m Hr fuel base ts a k h).
Qed.

(** X9: A single handler without [examples] anywhere below the node makes
    [test] throw before any request: the run ends with an uncaught
    exception, no test pending or started and no call of the callback. *)
Theorem test_missing_examples_throws : forall fuel N O n m a k h base rand,
  child_reach N n m -> lookup Nat.eqb m N = Some a -> In (k, h) (a_handlers a) ->
  hs_examples h = None ->
  exists e, test fuel N O n base rand = mkG N O [] [] [] [] 0 rand [] (Some e).
Proof.
  intros fuel N O n m a k h base rand Hr Ha Hkh He. unfold test.
  destruct (exportAllTests fuel N n base) as [ts|e] eqn:Hok; [|now exists e].
  destruct (exportAllTests_complete_gen N n m Hr fuel base ts a k h Hok Ha Hkh) as (exs & He' & _).
  congruence.
Qed.

Lemma exportAllTests_sound_witness :
  match exportAllTests 10 users_nodes 0 local_base with
  | Ok ts => ts <> [] /\ forall t, In t ts ->
      child_reach users_nodes 0 (t_node t) /\
      exists a exs, lookup Nat.eqb (t_node t) users_nodes = Some a /\
        In (t_method t, t_handler t) (a_handlers a) /\
        hs_examples (t_handler t) = Some exs /\ In (t_example t) exs
  | Throw _ => False
  end.
Proof.
  destruct (exportAllTests 10 users_nodes 0 local_base) as [ts|e] eqn:E.
  - split; [vm_compute in E; injection E as <-; discriminate|].
    intros t Ht. exact (exportAllTests_sound 10 users_nodes 0 local_base ts t E Ht).
  - vm_compute in E. discriminate.
Defined.

Lemma exportAllTests_complete_witness :
  match exportAllTests 10 users_nodes 0 local_base with
  | Ok ts => exists exs, hs_examples users_handler = Some exs /\
      forall ex, In ex exs -> exists t, In t ts /\ t_node t = 1 /\ t_method t = "get" /\
                                        t_handler t = users_handler /\ t_example t = ex
  | Throw _ => False
  end.
Proof.
  destruct (exportAllTests 10 users_nodes 0 local_base) as [ts|e] eqn:E.
  - apply (exportAllTests_complete 10 users_nodes 0 1 local_base ts users_child "get" users_handler).
    + apply (reach_child users_nodes 0 "/users" 1 1); [simpl; now left|apply reach_self].
    + exact E.
    + reflexivity.
    + simpl. now left.
  - vm_compute in E. discriminate.
Defined.

Lemma test_missing_examples_throws_witness :
  exists e, test 10 [(0, users_root);
                     (1, mkAPI (Some "/users") HookUnset HookUnset (PNode 0) []
                               [("get", mkHSpec None (JFunc 9) None)])] [] 0 local_base [] =
            mkG [(0, users_root);
                 (1, mkAPI (Some "/users") HookUnset HookUnset (PNode 0) []
                           [("get", mkHSpec None (JFunc 9) None)])] [] [] [] [] [] 0 [] [] (Some e).
Proof.
  apply (test_missing_examples_throws 10 _ [] 0 1
           (mkAPI (Some "/users") HookUnset HookUnset (PNode 0) [] [("get", mkHSpec None (JFunc 9) None)])
           "get" (mkHSpec None (JFunc 9) None) local_base []).
  - apply (reach_child _ 0 "/users" 1 1); [simpl; now left|apply reach_self].
  - reflexivity.
  - simpl. now left.
  - reflexivity.
Defined.

(** ** Running the tests one at a time *)

Lemma splice_perm : forall {A} i (l : list A) x r, splice i l = Some (x, r) -> Permutation l (x :: r).
Proof.
  intros A i l. revert i. induction l as [|y rest IH]; intros i x r H; [destruct i; simpl in H; discriminate|].
  destruct i as [|i]; simpl in H.
  - injection H as <- <-. reflexivity.
  - destruct (splice i rest) as [[z rest']|] eqn:E; [|discriminate].
    injection H as <- <-. apply IH in E.
    transitivity (y :: z :: rest'); [now constructor|apply perm_swap].
Qed.

Lemma splice_some : forall {A} i (l : list A), i < length l -> exists x r, splice i l = Some (x, r).
Proof.
  intros A i l. revert i. induction l as [|y rest IH]; intros i Hi; simpl in Hi; [lia|].
  destruct i as [|i]; simpl; [now exists y, rest|].
  destruct (IH i ltac:(lia)) as (x & r & E). rewrite E. now exists x, (y :: r).
Qed.

Lemma start_test_frame : forall t g,
  g_tests (start_test t g) = g_tests g /\
  (g_invs (start_test t g) = g_invs g \/
   exists iv, g_invs (start_test t g) = (g_invs g ++ [(g_next g, iv)])%list /\ i_test iv = t).
Proof.
  intros t g. unfold start_test.
  destruct (lookup Nat.eqb (t_node t) (g_nodes g)) as [a|]; [|split; [reflexivity|now left]].
  destruct (negb (is_http _)); [split; [reflexivity|now left]|].
  destruct (a_beforeEachTest a) as [|[e|]|], (a_afterEachTest a) as [|[e'|]|];
    (split; [reflexivity|]); solve [now left | right; eexists; split; reflexivity].
Qed.

(** X10: [runNextTest] with tests left takes exactly one of them out of the
    pending list, never repeating or losing one: the pending list before
    is a permutation of the taken test followed by the pending list after.
    If it starts a request, the new invocation is for that test. *)
Theorem run_next_takes_one_test : forall g, g_tests g <> [] ->
  exists t, Permutation (g_tests g) (t :: g_tests (run_next g)) /\
  (g_invs (run_next g) = g_invs g \/
   exists iv, g_invs (run_next g) = (g_invs g ++ [(g_next g, iv)])%list /\ i_test iv = t).
Proof.
  intros g Hne. unfold run_next.
  destruct (g_tests g) as [|t0 ts0] eqn:Ets; [congruence|].
  destruct (match g_rand g with [] => (0, []) | d :: ds => (d, ds) end) as [d ds].
  destruct (splice_some (d mod length (t0 :: ts0)) (t0 :: ts0)) as (x & r & E);
    [apply Nat.mod_upper_bound; discriminate|].
  rewrite E. exists x.
  destruct (start_test_frame x (mkG (g_nodes g) (g_objs g) r (g_passed g) (g_failed g) (g_invs g)
                                   (g_next g) ds (g_out g) (g_crash g))) as [Ht Hi].
  rewrite Ht. split; [exact (splice_perm _ _ _ _ E)|exact Hi].
Qed.

Lemma run_next_takes_one_test_witness :
  let g := mkG users_nodes [] (tests_of (exportAllTests 10 users_nodes 0 local_base)) [] [] [] 0 [1] []
               None in
  g_tests g <> [] /\
  exists t, Permutation (g_tests g) (t :: g_tests (run_next g)) /\
  (g_invs (run_next g) = g_invs g \/
   exists iv, g_invs (run_next g) = (g_invs g ++ [(g_next g, iv)])%list /\ i_test iv = t).
Proof.
  intros g. assert (Hne : g_tests g <> []) by (vm_compute; discriminate).
  split; [exact Hne|]. exact (run_next_takes_one_test g Hne).
Defined.

(** ** The verdict of one request *)

Lemma lookup_put_inv : forall i iv g j,
  lookup Nat.eqb j (g_invs (put_inv i iv g)) = if Nat.eqb j i then Some iv else lookup Nat.eqb j (g_invs g).
Proof. intros. unfold put_inv. simpl. apply (lookup_assoc_set Nat.eqb Nat.eqb_eq). Qed.

Lemma run_data : forall chunks g i iv r s hh eb body,
  g_crash g = None -> lookup Nat.eqb i (g_invs g) = Some iv ->
  i_phase iv = PReceiving r s hh eb body ->
  exists g2, run_events g (map (EvData i) chunks) = g2 /\ g_crash g2 = None /\
    g_passed g2 = g_passed g /\ g_objs g2 = g_objs g /\
    lookup Nat.eqb i (g_invs g2) =
      Some (inv_phase iv (PReceiving r s hh eb (fold_left String.append chunks body))).
Proof.
  induction chunks as [|c rest IH]; intros g i iv r s hh eb body Hc Hiv Hph.
  - exists g. split; [reflexivity|]. split; [exact Hc|]. split; [reflexivity|].
    split; [reflexivity|]. rewrite Hiv. f_equal.
    destruct iv; simpl in *; now subst.
  - unfold run_events. simpl. fold (run_events (step g (EvData i c)) (map (EvData i) rest)).
    assert (Hs : step g (EvData i c) =
                 put_inv i (inv_phase iv (PReceiving r s hh eb (body ++ c))) g)
      by (unfold step; now rewrite Hc, Hiv, Hph).
    rewrite Hs.
    assert (Hl : lookup Nat.eqb i (g_invs (put_inv i (inv_phase iv (PReceiving r s hh eb (body ++ c))) g))
                 = Some (inv_phase iv (PReceiving r s hh eb (body ++ c))))
      by (rewrite lookup_put_inv, Nat.eqb_refl; reflexivity).
    destruct (IH (put_inv i (inv_phase iv (PReceiving r s hh eb (body ++ c))) g) i
                 (inv_phase iv (PReceiving r s hh eb (body ++ c))) r s hh eb (body ++ c) Hc Hl eq_refl)
      as (g2 & Hg2 & Hc2 & Hp2 & Ho2 & Hl2).
    exists g2. split; [exact Hg2|]. split; [exact Hc2|]. split; [exact Hp2|]. split; [exact Ho2|].
    rewrite Hl2. now destruct iv.
Qed.

Lemma start_test_passed : forall t g, g_passed (start_test t g) = g_passed g.
Proof.
  intros t g. unfold start_test.
  destruct (lookup Nat.eqb (t_node t) (g_nodes g)) as [a|]; [|reflexivity].
  destruct (negb (is_http _)); [reflexivity|].
  destruct (a_beforeEachTest a) as [|[e|]|], (a_afterEachTest a) as [|[e'|]|]; reflexivity.
Qed.

Lemma run_next_passed : forall g, g_passed (run_next g) = g_passed g.
Proof.
  intros g. unfold run_next. destruct (g_tests g) as [|t0 ts0]; [reflexivity|].
  destruct (match g_rand g with [] => (0, []) | d :: ds => (d, ds) end) as [d ds].
  destruct (splice _ _) as [[t rest]|]; [|reflexivity].
  now rewrite start_test_passed.
Qed.

Lemma after_test_passed : forall iv g, i_after iv <> HookNotFunction ->
  g_passed (after_test iv g) = (g_passed g ++ i_passed iv)%list.
Proof.
  intros iv g H. unfold after_test.
  destruct (i_after iv) as [|[e|]|];
    [rewrite run_next_passed; reflexivity|reflexivity|rewrite run_next_passed; reflexivity|congruence].
Qed.

Lemma inv_phase_twice : forall iv ph1 ph2, inv_phase (inv_phase iv ph1) ph2 = inv_phase iv ph2.
Proof. reflexivity. Qed.

Lemma i_phase_inv_phase : forall iv ph, i_phase (inv_phase iv ph) = ph.
Proof. reflexivity. Qed.

(** X11: One request from the response to its [end]: for an invocation still
    waiting for its response (in a run that has not crashed, with an
    [afterEachTest] that is not a non-function and an expected body whose
    stringification does not throw), the response followed by the body
    [chunks] and the [end] event records the test as passed exactly when
    the status code matches the expected status (200 when it is falsy),
    every expected header check passes, and, when a body is expected, the
    trimmed expected body equals the trimmed concatenation of the chunks. *)
Theorem request_verdict : forall g i iv r chunks,
  g_crash g = None -> lookup Nat.eqb i (g_invs g) = Some iv ->
  i_phase iv = PWaiting -> i_passed iv = [] -> ~ In i (g_passed g) ->
  i_after iv <> HookNotFunction ->
  (forall v, rs_body (ex_response (t_example (i_test iv))) = Some v ->
             exists eb, expected_body (g_objs g) v = Ok eb) ->
  (In i (g_passed (run_events g (EvResponse i r :: map (EvData i) chunks ++ [EvEnd i]))) <->
   status_ok (rs_status (ex_response (t_example (i_test iv)))) (rp_statusCode r) = true /\
   match rs_headers (ex_response (t_example (i_test iv))) with
   | Some hs => headers_ok r hs = true
   | None => True
   end /\
   match rs_body (ex_response (t_example (i_test iv))) with
   | Some v => expected_body (g_objs g) v = Ok (trim (fold_left String.append chunks ""))
   | None => True
   end).
Proof.
  intros g i iv r chunks Hc Hiv Hph Hp Hnot Hafter Hbody.
  set (ex := ex_response (t_example (i_test iv))).
  set (success := status_ok (rs_status ex) (rp_statusCode r)
                  && match rs_headers ex with Some hs => headers_ok r hs | None => true end).
  set (hh := match rs_headers ex with Some _ => true | None => false end).
  (* the [response] event *)
  assert (Hr : exists eb, step g (EvResponse i r) =
                          put_inv i (inv_phase iv (PReceiving r success hh eb "")) g /\
                          match rs_body ex with
                          | Some v => expected_body (g_objs g) v = Ok (match eb with Some s => s | None => "" end)
                                      /\ eb <> None
                          | None => eb = None
                          end).
  { unfold step. rewrite Hc, Hiv, Hph. fold ex. fold success. fold hh.
    destruct (rs_body ex) as [v|] eqn:Eb; [|now exists None].
    destruct (Hbody v Eb) as [eb Heb]. rewrite Heb. exists (Some eb). now repeat split. }
  destruct Hr as (eb & Hstep & Heb).
  unfold run_events. simpl. rewrite Hstep. rewrite fold_left_app.
  fold (run_events (put_inv i (inv_phase iv (PReceiving r success hh eb "")) g) (map (EvData i) chunks)).
  destruct (run_data chunks (put_inv i (inv_phase iv (PReceiving r success hh eb "")) g) i
              (inv_phase iv (PReceiving r success hh eb "")) r success hh eb "")
    as (g2 & -> & Hc2 & Hp2 & Ho2 & Hl2);
    [exact Hc|rewrite lookup_put_inv, Nat.eqb_refl; reflexivity|reflexivity|].
  simpl fold_left. unfold step at 1. rewrite Hc2, Hl2.
  rewrite inv_phase_twice, i_phase_inv_phase. cbv iota beta.
  set (body := fold_left String.append chunks "").
  set (ok := success && match eb with Some s => String.eqb (trim body) s | None => true end).
  set (iv' := if ok then inv_pass i (inv_phase iv (PReceiving r success hh eb body))
              else inv_fail i PEnded
                     (AStatus (rp_statusCode r) (if hh then Some (rp_headers r) else None)
                              (match eb with Some _ => Some (trim body) | None => None end))
                     (inv_phase iv (PReceiving r success hh eb body))).
  assert (Ha' : i_after iv' <> HookNotFunction) by (unfold iv'; destruct ok; exact Hafter).
  rewrite after_test_passed by exact Ha'.
  simpl g_passed. rewrite Hp2. simpl g_passed.
  assert (Hpass : i_passed iv' = if ok then [i] else []).
  { unfold iv'. destruct ok; simpl; now rewrite Hp. }
  rewrite Hpass.
  assert (Hok : ok = true <->
     status_ok (rs_status ex) (rp_statusCode r) = true /\
     match rs_headers ex with Some hs => headers_ok r hs = true | None => True end /\
     match rs_body ex with
     | Some v => expected_body (g_objs g) v = Ok (trim body)
     | None => True
     end).
  { unfold ok, success. rewrite !andb_true_iff.
    destruct (rs_headers ex) as [hs|]; destruct (rs_body ex) as [v|].
    - destruct Heb as [Heb Hne]. destruct eb as [s|]; [|congruence]. rewrite Heb.
      rewrite String.eqb_eq. split; [intros [[? ?] ?]; subst; now repeat split|].
      intros (? & ? & Hs). injection Hs as <-. now repeat split.
    - subst eb. split; [intros [[? ?] _]; now repeat split|intros (? & ? & _); now repeat split].
    - destruct Heb as [Heb Hne]. destruct eb as [s|]; [|congruence]. rewrite Heb.
      rewrite String.eqb_eq. split; [intros [[? _] ?]; subst; now repeat split|].
      intros (? & _ & Hs). injection Hs as <-. now repeat split.
    - subst eb. split; [intros [[? _] _]; now repeat split|intros (? & _ & _); now repeat split]. }
  fold ex. fold body. rewrite <- Hok.
  destruct ok; simpl.
  - split; [reflexivity|intros _]. apply in_or_app. now right; left.
  - rewrite app_nil_r. split; [intros Hin; contradiction|discriminate].
Qed.

Lemma request_verdict_witness :
  let g := test 100 ping_nodes [] 0 local_base [] in
  match lookup Nat.eqb 0 (g_invs g) with
  | Some iv =>
      In 0 (g_passed (run_events g (EvResponse 0 (incoming 200 "text/plain")
                                    :: map (EvData 0) [" po"; "ng"; String (ascii_of_nat 10) ""]
                                    ++ [EvEnd 0]))) <->
      status_ok (rs_status (ex_response (t_example (i_test iv)))) 200 = true /\
      match rs_headers (ex_response (t_example (i_test iv))) with
      | Some hs => headers_ok (incoming 200 "text/plain") hs = true
      | None => True
      end /\
      match rs_body (ex_response (t_example (i_test iv))) with
      | Some v => expected_body [] v =
                  Ok (trim (fold_left String.append [" po"; "ng"; String (ascii_of_nat 10) ""] ""))
      | None => True
      end
  | None => False
  end.
Proof.
  intros g. destruct (lookup Nat.eqb 0 (g_invs g)) as [iv|] eqn:E.
  - assert (Hiv : iv = match lookup Nat.eqb 0 (g_invs g) with Some x => x | None => iv end)
      by now rewrite E.
    apply (request_verdict g 0 iv (incoming 200 "text/plain") [" po"; "ng"; String (ascii_of_nat 10) ""]).
    + vm_compute. reflexivity.
    + exact E.
    + rewrite Hiv. vm_compute. reflexivity.
    + rewrite Hiv. vm_compute. reflexivity.
    + vm_compute. intros [].
    + rewrite Hiv. vm_compute. discriminate.
    + intros v Hv. exists "pong". rewrite Hiv in Hv. vm_compute in Hv. injection Hv as <-.
      vm_compute. reflexivity.
  - vm_compute in E. discriminate.
Defined.

(** ** Anchors of the HTML documentation *)
Module AnchorFacts.

Lemma in_anchors_spec (A : list string) (s : string) :
  in_anchors A s = true <-> In s A.
Proof.
  unfold in_anchors. rewrite existsb_exists. split.
  - intros [x [Hx E]]. apply String.eqb_eq in E. subst. exact Hx.
  - intros H. exists s. split; [exact H | apply String.eqb_refl].
Qed.

Lemma to_uint_not_nil (n : nat) : Nat.to_uint n <> Decimal.Nil.
Proof.
  intros E. pose proof (Unsigned.of_to n) as H. rewrite E in H. simpl in H. subst.
  vm_compute in E. discriminate E.
Qed.

Lemma nat_to_string_inj (i j : nat) : nat_to_string i = nat_to_string j -> i = j.
Proof.
  unfold nat_to_string. intros H. apply (f_equal NilZero.uint_of_string) in H.
  rewrite !NilZero.usu in H by apply to_uint_not_nil. injection H as H.
  rewrite <- (Unsigned.of_to i), <- (Unsigned.of_to j), H. reflexivity.
Qed.

Lemma string_app_cancel (b x y : string) : b ++ x = b ++ y -> x = y.
Proof.
  induction b as [|c b IH]; simpl; [tauto|]. intros H. injection H. exact IH.
Qed.

Lemma suffixed_inj (b : string) : Injective (suffixed b).
Proof.
  intros i j H. unfold suffixed in H. apply string_app_cancel in H. simpl in H.
  injection H. apply nat_to_string_inj.
Qed.

Lemma find_free_spec (fuel : nat) (A : list string) (b : string) (i : nat) :
  i <= find_free fuel A b i <= i + fuel /\
  (forall j, i <= j < find_free fuel A b i -> In (suffixed b j) A) /\
  (find_free fuel A b i < i + fuel -> ~ In (suffixed b (find_free fuel A b i)) A).
Proof.
  revert i. induction fuel as [|f IH]; intros i; simpl.
  - split; [lia|]. split; [intros j Hj; lia | intros Hlt; lia].
  - destruct (in_anchors A (suffixed b i)) eqn:E.
    + destruct (IH (S i)) as (H1 & H2 & H3). split; [lia|]. split.
      * intros j Hj. destruct (Nat.eq_dec j i) as [->|Hne].
        -- apply in_anchors_spec. exact E.
        -- apply H2. lia.
      * intros Hlt. apply H3. lia.
    + split; [lia|]. split; [intros j Hj; lia|].
      intros _ Hin. apply in_anchors_spec in Hin. congruence.
Qed.

(** With one round more than there are anchors, the loop always stops on a
    free suffix. *)
Lemma find_free_fresh (A : list string) (b : string) (i : nat) :
  ~ In (suffixed b (find_free (S (length A)) A b i)) A.
Proof.
  destruct (find_free_spec (S (length A)) A b i) as (H1 & H2 & H3).
  destruct (Nat.lt_ge_cases (find_free (S (length A)) A b i) (i + S (length A))) as [Hlt|Hge].
  - exact (H3 Hlt).
  - exfalso.
    assert (Hinc : incl (map (suffixed b) (seq i (S (length A)))) A).
    { intros x Hx. apply in_map_iff in Hx as (j & <- & Hj). apply in_seq in Hj.
      apply H2. lia. }
    apply NoDup_incl_length in Hinc.
    + rewrite length_map, length_seq in Hinc. lia.
    + apply Injective_map_NoDup; [apply suffixed_inj | apply seq_NoDup].
Qed.

Lemma getAnchor_shape (A : list string) (t : string) :
  snd (getAnchor A t) = (A ++ [fst (getAnchor A t)])%list /\
  ~ In (fst (getAnchor A t)) A /\
  (~ In (anchor_slug t) A -> fst (getAnchor A t) = anchor_slug t) /\
  (In (anchor_slug t) A ->
     exists i, 2 <= i /\ fst (getAnchor A t) = suffixed (anchor_slug t) i /\
       forall j, 2 <= j < i -> In (suffixed (anchor_slug t) j) A).
Proof.
  unfold getAnchor. simpl.
  destruct (in_anchors A (anchor_slug t)) eqn:E.
  - apply in_anchors_spec in E. split; [reflexivity|]. split; [apply find_free_fresh|].
    split; [intros Hn; contradiction|]. intros _.
    destruct (find_free_spec (S (length A)) A (anchor_slug t) 2) as (H1 & H2 & _).
    exists (find_free (S (length A)) A (anchor_slug t) 2). split; [lia|]. split; [reflexivity|].
    exact H2.
  - split; [reflexivity|]. split.
    + intros Hin. apply in_anchors_spec in Hin. congruence.
    + split; [reflexivity|]. intros Hin. apply in_anchors_spec in Hin. congruence.
Qed.

Lemma str_forall_app (f : ascii -> bool) (s t : string) :
  str_forall f (s ++ t) = str_forall f s && str_forall f t.
Proof.
  induction s as [|c s IH]; simpl; [reflexivity|]. rewrite IH. apply andb_assoc.
Qed.

Lemma str_forall_impl (f g : ascii -> bool) (s : string) :
  (forall c, f c = true -> g c = true) -> str_forall f s = true -> str_forall g s = true.
Proof.
  intros Hfg. induction s as [|c s IH]; simpl; [tauto|].
  intros H. apply andb_true_iff in H as [H1 H2]. rewrite (Hfg c H1), (IH H2). reflexivity.
Qed.

Lemma filter_str_forall (f : ascii -> bool) (s : string) :
  str_forall f (filter_str f s) = true.
Proof.
  induction s as [|c s IH]; simpl; [reflexivity|].
  destruct (f c) eqn:E; simpl; [rewrite E|]; exact IH.
Qed.

Lemma trim_start_forall (f : ascii -> bool) (s : string) :
  str_forall f s = true -> str_forall f (trim_start s) = true.
Proof.
  induction s as [|c s IH]; simpl; [tauto|]. intros H.
  destruct (is_ws c).
  - apply IH. apply andb_true_iff in H. apply H.
  - simpl. exact H.
Qed.

Lemma rev_str_forall (f : ascii -> bool) (s acc : string) :
  str_forall f (rev_str s acc) = str_forall f s && str_forall f acc.
Proof.
  revert acc. induction s as [|c s IH]; intros acc; simpl; [reflexivity|].
  rewrite IH. simpl. destruct (f c), (str_forall f s), (str_forall f acc); reflexivity.
Qed.

Lemma trim_forall (f : ascii -> bool) (s : string) :
  str_forall f s = true -> str_forall f (trim s) = true.
Proof.
  intros H. unfold trim. rewrite rev_str_forall. simpl. rewrite andb_true_r.
  apply trim_start_forall. rewrite rev_str_forall. simpl. rewrite andb_true_r.
  apply trim_start_forall. exact H.
Qed.

Lemma space_to_dash_forall (s : string) :
  str_forall slug_char s = true -> str_forall anchor_char (space_to_dash s) = true.
Proof.
  induction s as [|c s IH]; simpl; [tauto|]. intros H.
  apply andb_true_iff in H as [H1 H2]. rewrite (IH H2), andb_true_r.
  destruct (Ascii.eqb c " "%char) eqn:E; [reflexivity|].
  unfold slug_char in H1. rewrite E, orb_false_r in H1.
  unfold anchor_char. rewrite H1. reflexivity.
Qed.

Lemma string_of_uint_digits (d : Decimal.uint) :
  str_forall is_digit (NilEmpty.string_of_uint d) = true.
Proof.
  induction d; simpl; try reflexivity; exact IHd.
Qed.

Lemma nat_to_string_digits (n : nat) : str_forall is_digit (nat_to_string n) = true.
Proof.
  unfold nat_to_string, NilZero.string_of_uint.
  destruct (Nat.to_uint n); try reflexivity; apply string_of_uint_digits.
Qed.

End AnchorFacts.

Import AnchorFacts.

(** X12: [getAnchor] pushes the anchor it returns onto [anchors], and that
    anchor was not there before: it is the slug of the title when the slug
    is unused, and otherwise the slug followed by ["-i"] for the least
    [i >= 2] whose suffixed form is unused. *)
Theorem getAnchor_least_free (A : list string) (t : string) :
  snd (getAnchor A t) = (A ++ [fst (getAnchor A t)])%list /\
  ~ In (fst (getAnchor A t)) A /\
  (~ In (anchor_slug t) A -> fst (getAnchor A t) = anchor_slug t) /\
  (In (anchor_slug t) A ->
     exists i, 2 <= i /\ fst (getAnchor A t) = suffixed (anchor_slug t) i /\
       ~ In (suffixed (anchor_slug t) i) A /\
       forall j, 2 <= j < i -> In (suffixed (anchor_slug t) j) A).
Proof.
  destruct (getAnchor_shape A t) as (H1 & H2 & H3 & H4).
  split; [exact H1|]. split; [exact H2|]. split; [exact H3|].
  intros Hin. destruct (H4 Hin) as (i & Hi & Ha & Hj).
  exists i. split; [exact Hi|]. split; [exact Ha|]. split; [|exact Hj].
  rewrite <- Ha. exact H2.
Qed.

(** X13: anchors only contain lower-case letters, digits and dashes. *)
Theorem getAnchor_charset (A : list string) (t : string) :
  str_forall anchor_char (fst (getAnchor A t)) = true.
Proof.
  assert (Hslug : str_forall anchor_char (anchor_slug t) = true).
  { unfold anchor_slug. apply space_to_dash_forall, trim_forall, filter_str_forall. }
  unfold getAnchor. simpl. destruct (in_anchors A (anchor_slug t)); [|exact Hslug].
  unfold suffixed. rewrite !str_forall_app, Hslug. simpl.
  apply (str_forall_impl is_digit); [|apply nat_to_string_digits].
  intros c Hc. unfold anchor_char. rewrite Hc, orb_true_r. reflexivity.
Qed.

(** X14: titles handed one after another to [getAnchor] on one array get
    pairwise distinct anchors, none of them already in the array: starting
    from duplicate-free anchors, the array ends as the old anchors followed
    by the new ones, still without duplicates. *)
Theorem getAnchors_distinct (A : list string) (ts : list string) :
  NoDup A ->
  snd (getAnchors A ts) = (A ++ fst (getAnchors A ts))%list /\ NoDup (snd (getAnchors A ts)).
Proof.
  revert A. induction ts as [|t ts IH]; intros A HA.
  - simpl. rewrite app_nil_r. split; [reflexivity | exact HA].
  - cbn [getAnchors]. destruct (getAnchor_shape A t) as (H1 & H2 & _).
    destruct (getAnchor A t) as [a A1]. simpl in H1, H2.
    assert (HA1 : NoDup A1).
    { rewrite H1. apply (Permutation_NoDup (Permutation_cons_append A a)).
      constructor; assumption. }
    destruct (IH A1 HA1) as (H3 & H4).
    destruct (getAnchors A1 ts) as [rest A2]. simpl in H3, H4 |- *.
    split; [|exact H4]. rewrite H3, H1, <- app_assoc. reflexivity.
Qed.

Lemma getAnchors_distinct_witness :
  NoDup ["users"] /\
  snd (getAnchors ["users"] ["Users"; "users"; "Users 2"]) =
    (["users"] ++ fst (getAnchors ["users"] ["Users"; "users"; "Users 2"]))%list /\
  NoDup (snd (getAnchors ["users"] ["Users"; "users"; "Users 2"])).
Proof.
  assert (H : NoDup ["users"]) by (constructor; [intros [] | constructor]).
  split; [exact H | apply (getAnchors_distinct ["users"] ["Users"; "users"; "Users 2"]); exact H].
Defined.
